(** * DeallocatingVector: a block-segmented vector with a draining iterator

    Shallow embedding of [DataStructures/DeallocatingVector.h] and the
    verification of its container and iterator contracts.

    The C++ objects are modelled as follows.
    - [std::size_t] values are integers in [[0, 2^64)]; every arithmetic
      operation of the source that can overflow is followed by [wrap].
    - The free store is a finite map from block addresses to the arrays
      created by [new ElementT[n]], together with the log of the addresses
      handed back by [delete[]], in the order of the calls. What
      default-initialisation leaves in the elements of a new array depends
      on the element type and is a parameter of the model, [DefaultInit].
    - A [std::vector<ElementT *>] is a list of optional addresses, [None]
      being [nullptr].
    - A member function that can fail returns an [outcome]: a value, the
      exception of a checked [at], or undefined behaviour. *)

From stdpp Require Import base numbers option list gmap.

Local Open Scope Z_scope.

(** ** Machine integers *)

Definition SIZE_MODULUS : Z := 2 ^ 64.

(** Arithmetic on [std::size_t] is modulo [2^64]. *)
Definition wrap (z : Z) : Z := z mod SIZE_MODULUS.

(** Conversion of a [std::size_t] value to [std::ptrdiff_t]. *)
Definition to_ptrdiff (z : Z) : Z :=
  if decide (z < 2 ^ 63) then z else z - SIZE_MODULUS.

(** ** Results of member functions *)

Inductive outcome (A : Type) : Type :=
| Ok (a : A)      (* normal return *)
| Throw           (* std::out_of_range, raised by std::vector::at *)
| Undefined       (* undefined behaviour *)
| OutOfFuel.      (* the loop bound of the model was reached *)

Arguments Ok {A} a.
Arguments Throw {A}.
Arguments Undefined {A}.
Arguments OutOfFuel {A}.

#[global] Instance outcome_ret : MRet outcome := @Ok.
#[global] Instance outcome_bind : MBind outcome := λ A B f x,
  match x with
  | Ok a => f a
  | Throw => Throw
  | Undefined => Undefined
  | OutOfFuel => OutOfFuel
  end.

(** ** The free store *)

Module Memory.

Definition addr : Type := positive.

(** An array made by [new ElementT[n]]: its length and the cells that hold
    a value. A cell without a value is indeterminate: it was left so by
    default-initialisation and has not been assigned since. *)
Record array (ElementT : Type) : Type :=
{ extent : Z; cells : gmap Z ElementT }.
Arguments extent {ElementT} _.
Arguments cells {ElementT} _.

Record memory (ElementT : Type) : Type :=
{ live : gmap positive (array ElementT); released : list positive }.
Arguments live {ElementT} _.
Arguments released {ElementT} _.

(** What [new ElementT[n]] leaves in the elements it creates. The array is
    default-initialised: an element of a class type is built by the
    default constructor and has the value [d] of [Some d]; an element of a
    scalar or trivially constructible type has an indeterminate value,
    which is [None]. *)
Class DefaultInit (ElementT : Type) : Type := default_init : option ElementT.

Section Operations.
Context {ElementT : Type}.

Definition empty : memory ElementT := {| live := ∅; released := [] |}.

(** The cells of a default-initialised array of [n] elements. *)
Definition default_cells `{!DefaultInit ElementT} (n : Z) : gmap Z ElementT :=
  match default_init with
  | Some d => gset_to_gmap d (list_to_set (seqZ 0 n))
  | None => ∅
  end.

(** [new ElementT[n]]: an address that was never handed out before. *)
Definition new_array `{!DefaultInit ElementT} (n : Z) (m : memory ElementT)
  : addr * memory ElementT :=
  let a := fresh (dom (live m) ∪ list_to_set (released m)) in
  (a, {| live := <[a := {| extent := n; cells := default_cells n |}]> (live m);
         released := released m |}).

(** [delete[] p]. Nothing happens for [nullptr]; an address that is not
    that of a live array is undefined behaviour. *)
Definition delete_array (p : option addr) (m : memory ElementT)
  : outcome (memory ElementT) :=
  match p with
  | None => Ok m
  | Some a =>
      match live m !! a with
      | Some _ => Ok {| live := delete a (live m);
                        released := released m ++ [a] |}
      | None => Undefined
      end
  end.

(** [p[o]] as an lvalue: the cell [o] of the array at [p]. *)
Definition element (m : memory ElementT) (p : option addr) (o : Z)
  : outcome (addr * Z) :=
  match p with
  | None => Undefined
  | Some a =>
      match live m !! a with
      | Some b => if decide (0 <= o < extent b) then Ok (a, o) else Undefined
      | None => Undefined
      end
  end.

(** Reading through a reference. *)
Definition load (m : memory ElementT) (r : addr * Z) : outcome ElementT :=
  match live m !! r.1 with
  | Some b => match cells b !! r.2 with
              | Some v => Ok v
              | None => Undefined
              end
  | None => Undefined
  end.

(** Assigning through a reference. *)
Definition store (m : memory ElementT) (r : addr * Z) (v : ElementT)
  : outcome (memory ElementT) :=
  match live m !! r.1 with
  | Some b =>
      Ok {| live := <[r.1 := {| extent := extent b;
                                cells := <[r.2 := v]> (cells b) |}]> (live m);
            released := released m |}
  | None => Undefined
  end.
End Operations.

End Memory.

(** ** [std::vector<ElementT *>] *)

Module Vector.
Import Memory.

Definition get {A : Type} (l : list A) (i : Z) : option A :=
  if decide (0 <= i) then l !! Z.to_nat i else None.

(** [v[i]]: unchecked. *)
Definition subscript {A : Type} (l : list A) (i : Z) : outcome A :=
  match get l i with
  | Some p => Ok p
  | None => Undefined
  end.

(** [v.at(i)]: checked. *)
Definition at_ {A : Type} (l : list A) (i : Z) : outcome A :=
  match get l i with
  | Some p => Ok p
  | None => Throw
  end.

(** [v.at(i) = p]. *)
Definition assign_at {A : Type} (l : list A) (i : Z) (p : A) : outcome (list A) :=
  match get l i with
  | Some _ => Ok (<[Z.to_nat i := p]> l)
  | None => Throw
  end.

(** [v.back()]. *)
Definition back {A : Type} (l : list A) : outcome A :=
  match last l with
  | Some p => Ok p
  | None => Undefined
  end.

(** [v.resize(n)] on a vector of pointers: truncation, or padding with
  value-initialised (null) pointers. *)
Definition resize (n : Z) (l : list (option addr)) : list (option addr) :=
  take (Z.to_nat n) l ++ replicate (Z.to_nat n - length l)%nat None.

(** [v.size()]. *)
Definition size {A : Type} (l : list A) : Z := Z.of_nat (length l).
End Vector.

(** ** The container *)

Module DeallocatingVector.
Import Memory.

Record t : Type :=
{ current_size : Z; bucket_list : list (option addr) }.

Section Methods.
Context {ElementT : Type} `{!DefaultInit ElementT} (ELEMENTS_PER_BLOCK : Z).

Abbreviation memory := (memory ElementT).

Definition construct (m : memory) : memory * t :=
  let '(a, m') := new_array ELEMENTS_PER_BLOCK m in
  (m', {| current_size := 0; bucket_list := [Some a] |}).

Definition size (c : t) : Z := current_size c.

Definition capacity (c : t) : Z :=
  wrap (Vector.size (bucket_list c) * ELEMENTS_PER_BLOCK).

(** The loop of [clear]. *)
Fixpoint clear_buckets (bl : list (option addr)) (m : memory) : outcome memory :=
  match bl with
  | [] => Ok m
  | bucket :: rest =>
      m' ← (if decide (None ≠ bucket) then delete_array bucket m else Ok m);
      clear_buckets rest m'
  end.

Definition clear (m : memory) (c : t) : outcome (memory * t) :=
  m' ← clear_buckets (bucket_list c) m;
  Ok (m', {| current_size := 0; bucket_list := [] |}).

Definition push_back (m : memory) (c : t) (element : ElementT)
  : outcome (memory * t) :=
  let current_capacity := capacity c in
  let '(m1, bl1) :=
    if decide (current_size c = current_capacity)
    then let '(a, m') := new_array ELEMENTS_PER_BLOCK m in
         (m', bucket_list c ++ [Some a])
    else (m, bucket_list c) in
  let current_index := size c mod ELEMENTS_PER_BLOCK in
  p ← Vector.back bl1;
  r ← Memory.element m1 p current_index;
  m2 ← store m1 r element;
  Ok (m2, {| current_size := wrap (current_size c + 1); bucket_list := bl1 |}).

(** [emplace_back] receives the constructor arguments; [element] is the
    value [ElementT(args...)] built from them. *)
Definition emplace_back (m : memory) (c : t) (element : ElementT)
  : outcome (memory * t) :=
  let current_capacity := capacity c in
  let '(m1, bl1) :=
    if decide (current_size c = current_capacity)
    then let '(a, m') := new_array ELEMENTS_PER_BLOCK m in
         (m', bucket_list c ++ [Some a])
    else (m, bucket_list c) in
  let current_index := size c mod ELEMENTS_PER_BLOCK in
  p ← Vector.back bl1;
  r ← Memory.element m1 p current_index;
  m2 ← store m1 r element;
  Ok (m2, {| current_size := wrap (current_size c + 1); bucket_list := bl1 |}).

Definition reserve (m : memory) (c : t) (_ : Z) : memory * t := (m, c).

(** The [while] loop of the growing branch of [resize]. *)
Fixpoint resize_grow (fuel : nat) (new_size : Z) (m : memory) (c : t)
  : outcome (memory * t) :=
  if decide (capacity c < new_size) then
    match fuel with
    | O => OutOfFuel
    | S fuel' =>
        let '(a, m') := new_array ELEMENTS_PER_BLOCK m in
        resize_grow fuel' new_size m'
          {| current_size := current_size c;
             bucket_list := bucket_list c ++ [Some a] |}
    end
  else Ok (m, c).

(** The [for] loop of the shrinking branch of [resize]. *)
Fixpoint resize_delete (bl : list (option addr)) (m : memory) : outcome memory :=
  match bl with
  | [] => Ok m
  | bucket :: rest => m' ← delete_array bucket m; resize_delete rest m'
  end.

Definition resize (fuel : nat) (m : memory) (c : t) (new_size : Z)
  : outcome (memory * t) :=
  '(m', c') ←
    (if decide (new_size >= current_size c) then
       resize_grow fuel new_size m c
     else
       let number_of_necessary_buckets :=
         wrap (1 + new_size / ELEMENTS_PER_BLOCK) in
       m' ← resize_delete (bucket_list c) m;
       Ok (m', {| current_size := current_size c;
                  bucket_list :=
                    Vector.resize number_of_necessary_buckets (bucket_list c) |}));
  Ok (m', {| current_size := new_size; bucket_list := bucket_list c' |}).

(** [operator[]], as the reference it returns. *)
Definition subscript (m : memory) (c : t) (index : Z) : outcome (addr * Z) :=
  let _bucket := index / ELEMENTS_PER_BLOCK in
  let _index := index mod ELEMENTS_PER_BLOCK in
  p ← Vector.subscript (bucket_list c) _bucket;
  Memory.element m p _index.

Definition back (m : memory) (c : t) : outcome (addr * Z) :=
  let _bucket := current_size c / ELEMENTS_PER_BLOCK in
  let _index := current_size c mod ELEMENTS_PER_BLOCK in
  p ← Vector.subscript (bucket_list c) _bucket;
  Memory.element m p _index.

(** Reading the element [operator[]] refers to. *)
Definition read (m : memory) (c : t) (index : Z) : outcome ElementT :=
  r ← subscript m c index; load m r.
End Methods.

(** The destructor is [clear()]. *)
Definition destructor {ElementT : Type} (m : Memory.memory ElementT) (c : t)
  : outcome (Memory.memory ElementT * t) :=
  clear m c.

(** [swap] exchanges both members of the two containers. *)
Definition swap (c other : t) : t * t :=
({| current_size := current_size other; bucket_list := bucket_list other |},
 {| current_size := current_size c; bucket_list := bucket_list c |}).

End DeallocatingVector.

(** ** Containers in memory

    Iterators hold the address of the [bucket_list] member of a container.
    The containers that exist are kept in a list; the address of the
    [bucket_list] of the [k]-th one is [Some k], and [None] is [nullptr]. *)

Module World.
Import Memory.

Record t (ElementT : Type) : Type :=
  { mem : memory ElementT; vectors : list DeallocatingVector.t }.
Arguments mem {ElementT} _.
Arguments vectors {ElementT} _.

Section World.
Context {ElementT : Type}.

Definition empty : t ElementT := {| mem := Memory.empty; vectors := [] |}.

(** [*p] for a [std::vector<ElementT *> *p]. *)
Definition pointee (w : t ElementT) (p : option nat) : outcome (list (option addr)) :=
  match p with
  | None => Undefined
  | Some k =>
      match vectors w !! k with
      | Some c => Ok (DeallocatingVector.bucket_list c)
      | None => Undefined
      end
  end.

(** The world in which [*p] is [bl] and the free store is [m]. *)
Definition update (w : t ElementT) (p : option nat) (m : memory ElementT)
    (bl : list (option addr)) : outcome (t ElementT) :=
  match p with
  | None => Undefined
  | Some k =>
      match vectors w !! k with
      | Some c =>
          Ok {| mem := m;
                vectors := <[k := {| DeallocatingVector.current_size :=
                                       DeallocatingVector.current_size c;
                                     DeallocatingVector.bucket_list := bl |}]>
                             (vectors w) |}
      | None => Undefined
      end
  end.

(** A member function called on the [k]-th container. *)
Definition call (k : nat)
    (f : memory ElementT → DeallocatingVector.t →
         outcome (memory ElementT * DeallocatingVector.t))
    (w : t ElementT) : outcome (t ElementT) :=
  match vectors w !! k with
  | Some c =>
      '(m', c') ← f (mem w) c;
      Ok {| mem := m'; vectors := <[k := c']> (vectors w) |}
  | None => Undefined
  end.
End World.
End World.

(** ** Iterators *)

Module IteratorState.
Record t : Type := { index : Z; bucket_list : option nat }.

Definition default : t := {| index := wrap (-1); bucket_list := None |}.
Definition make (idx : Z) (input_list : option nat) : t :=
  {| index := idx; bucket_list := input_list |}.
End IteratorState.

Module DeallocatingVectorIterator.
Import Memory IteratorState.

Definition advance (n : Z) (current_state : t) : t :=
  {| index := wrap (index current_state + n);
     bucket_list := bucket_list current_state |}.

Definition increment (current_state : t) : t := advance 1 current_state.

Definition decrement (current_state : t) : t := advance (wrap (-1)) current_state.

Definition equal (current_state other : t) : bool :=
  bool_decide (index current_state = index other).

Definition distance_to (current_state other : t) : Z :=
  to_ptrdiff (wrap (index other - index current_state)).

Definition dereference {ElementT : Type} (ELEMENTS_PER_BLOCK : Z)
    (w : World.t ElementT) (current_state : t) : outcome (addr * Z) :=
  let current_bucket := index current_state / ELEMENTS_PER_BLOCK in
  let current_index := index current_state mod ELEMENTS_PER_BLOCK in
  bl ← World.pointee w (bucket_list current_state);
  p ← Vector.at_ bl current_bucket;
  Memory.element (World.mem w) p current_index.
End DeallocatingVectorIterator.

Module DeallocatingVectorRemoveIterator.
Import Memory IteratorState.

Section Methods.
Context {ElementT : Type} (ELEMENTS_PER_BLOCK : Z).

Definition increment (w : World.t ElementT) (current_state : t)
  : outcome (World.t ElementT * t) :=
  let old_bucket := index current_state / ELEMENTS_PER_BLOCK in
  let current_state' :=
    {| index := wrap (index current_state + 1);
       bucket_list := bucket_list current_state |} in
  let new_bucket := index current_state' / ELEMENTS_PER_BLOCK in
  if decide (old_bucket ≠ new_bucket) then
    bl ← World.pointee w (bucket_list current_state');
    p ← Vector.at_ bl old_bucket;
    if decide (None ≠ p) then
      m' ← delete_array p (World.mem w);
      bl' ← Vector.assign_at bl old_bucket None;
      w' ← World.update w (bucket_list current_state') m' bl';
      Ok (w', current_state')
    else Ok (w, current_state')
  else Ok (w, current_state').

Definition equal (current_state other : t) : bool :=
  bool_decide (index current_state = index other).

Definition distance_to (current_state other : t) : Z :=
  to_ptrdiff (wrap (index other - index current_state)).

Definition dereference (w : World.t ElementT) (current_state : t)
  : outcome (addr * Z) :=
  let current_bucket := index current_state / ELEMENTS_PER_BLOCK in
  let current_index := index current_state mod ELEMENTS_PER_BLOCK in
  bl ← World.pointee w (bucket_list current_state);
  p ← Vector.at_ bl current_bucket;
  Memory.element (World.mem w) p current_index.

(** The drain loop of a client:
    [for (it = first; it != last; ++it) {}]. *)
Fixpoint traverse (fuel : nat) (w : World.t ElementT) (it last : t)
  : outcome (World.t ElementT * t) :=
  if equal it last then Ok (w, it)
  else match fuel with
       | O => OutOfFuel
       | S fuel' =>
           '(w', it') ← increment w it;
           traverse fuel' w' it' last
       end.
End Methods.
End DeallocatingVectorRemoveIterator.

(** ** Iterator ranges of the [k]-th container, and programs over containers *)

Module Program.
Import Memory.

Section Program.
Context {ElementT : Type} `{!DefaultInit ElementT} (ELEMENTS_PER_BLOCK : Z).

Definition begin_ (w : World.t ElementT) (k : nat) : IteratorState.t :=
  IteratorState.make 0 (Some k).

Definition end_ (w : World.t ElementT) (k : nat) : outcome IteratorState.t :=
  match World.vectors w !! k with
  | Some c => Ok (IteratorState.make (DeallocatingVector.size c) (Some k))
  | None => Undefined
  end.

Definition dbegin (w : World.t ElementT) (k : nat) : IteratorState.t :=
  IteratorState.make 0 (Some k).

Definition dend (w : World.t ElementT) (k : nat) : outcome IteratorState.t :=
  match World.vectors w !! k with
  | Some c => Ok (IteratorState.make (DeallocatingVector.size c) (Some k))
  | None => Undefined
  end.

(** The mutating operations of the public interface. *)
Inductive op : Type :=
| Construct
| PushBack (k : nat) (element : ElementT)
| EmplaceBack (k : nat) (element : ElementT)
| Reserve (k : nat) (n : Z)
| Resize (k : nat) (new_size : Z)
| Clear (k : nat)
| Swap (k other : nat).

Definition exec (fuel : nat) (o : op) (w : World.t ElementT)
  : outcome (World.t ElementT) :=
  match o with
  | Construct =>
      let '(m', c) := DeallocatingVector.construct ELEMENTS_PER_BLOCK (World.mem w) in
      Ok {| World.mem := m'; World.vectors := World.vectors w ++ [c] |}
  | PushBack k element =>
      World.call k (λ m c, DeallocatingVector.push_back ELEMENTS_PER_BLOCK m c element) w
  | EmplaceBack k element =>
      World.call k (λ m c, DeallocatingVector.emplace_back ELEMENTS_PER_BLOCK m c element) w
  | Reserve k n =>
      World.call k (λ m c, Ok (DeallocatingVector.reserve m c n)) w
  | Resize k new_size =>
      World.call k (λ m c, DeallocatingVector.resize ELEMENTS_PER_BLOCK fuel m c new_size) w
  | Clear k =>
      World.call k (λ m c, DeallocatingVector.clear m c) w
  | Swap k other =>
      match World.vectors w !! k, World.vectors w !! other with
      | Some c, Some c_other =>
          let '(c', c_other') := DeallocatingVector.swap c c_other in
          Ok {| World.mem := World.mem w;
                World.vectors := <[other := c_other']> (<[k := c']> (World.vectors w)) |}
      | _, _ => Undefined
      end
  end.

(** A [std::size_t] argument is a number below [2^64]. *)
Definition size_t_args (o : op) : Prop :=
  match o with
  | Reserve _ n | Resize _ n => 0 <= n < SIZE_MODULUS
  | _ => True
  end.

(** The states a program can reach from no container at all. *)
Inductive reachable : World.t ElementT → Prop :=
| reachable_empty : reachable World.empty
| reachable_step w o fuel w' :
    reachable w → size_t_args o → exec fuel o w = Ok w' → reachable w'.
End Program.
End Program.

(** ** Vocabulary of the specifications *)

Module Spec.
Import Memory.

(** The blocks a bucket list holds: its non-null pointers, in slot order. *)
Definition held (bl : list (option addr)) : list addr := omap id bl.

(** The container is the only owner of its blocks: no block sits in two
    slots, and every held block is a live array of [ELEMENTS_PER_BLOCK]
    elements. *)
Definition owns {ElementT : Type} (ELEMENTS_PER_BLOCK : Z)
    (m : memory ElementT) (bl : list (option addr)) : Prop :=
  NoDup (held bl) ∧
  ∀ a, a ∈ held bl → ∃ b, live m !! a = Some b ∧ extent b = ELEMENTS_PER_BLOCK.

(** No slot of the bucket list has been released by a draining pass. *)
Definition intact (bl : list (option addr)) : Prop := bl = Some <$> held bl.

(** Consecutive [push_back] calls. *)
Fixpoint push_all {ElementT : Type} `{!DefaultInit ElementT} (ELEMENTS_PER_BLOCK : Z)
    (vs : list ElementT) (s : memory ElementT * DeallocatingVector.t)
  : outcome (memory ElementT * DeallocatingVector.t) :=
  match vs with
  | [] => Ok s
  | v :: vs' =>
      s' ← DeallocatingVector.push_back ELEMENTS_PER_BLOCK s.1 s.2 v;
      push_all ELEMENTS_PER_BLOCK vs' s'
  end.

(** A program, run operation by operation. *)
Fixpoint run {ElementT : Type} `{!DefaultInit ElementT}
    (ELEMENTS_PER_BLOCK : Z) (fuel : nat)
    (ops : list (Program.op (ElementT := ElementT))) (w : World.t ElementT)
  : outcome (World.t ElementT) :=
  match ops with
  | [] => Ok w
  | o :: ops' =>
      w' ← Program.exec ELEMENTS_PER_BLOCK fuel o w;
      run ELEMENTS_PER_BLOCK fuel ops' w'
  end.

(** The block count is the least that covers [k] elements, or the single
    block of a new container. *)
Definition tight (ELEMENTS_PER_BLOCK k blocks : Z) : Prop :=
  k <= blocks * ELEMENTS_PER_BLOCK ∧
  (blocks * ELEMENTS_PER_BLOCK < k + ELEMENTS_PER_BLOCK ∨ (k = 0 ∧ blocks = 1)).

(** The container holds exactly the values [vs], in order, in blocks that
    it owns and of which none has been released. *)
Definition stores {ElementT : Type} (ELEMENTS_PER_BLOCK : Z)
    (m : memory ElementT) (c : DeallocatingVector.t) (vs : list ElementT) : Prop :=
  DeallocatingVector.current_size c = Z.of_nat (length vs) ∧
  intact (DeallocatingVector.bucket_list c) ∧
  owns ELEMENTS_PER_BLOCK m (DeallocatingVector.bucket_list c) ∧
  tight ELEMENTS_PER_BLOCK (Z.of_nat (length vs))
    (Vector.size (DeallocatingVector.bucket_list c)) ∧
  ∀ i v, vs !! i = Some v →
         DeallocatingVector.read ELEMENTS_PER_BLOCK m c (Z.of_nat i) = Ok v.

(** The size is a [std::size_t] value and the blocks cover it. The block
    count is not reduced modulo [2^64] here. *)
Definition covered (ELEMENTS_PER_BLOCK : Z) (c : DeallocatingVector.t) : Prop :=
  0 <= DeallocatingVector.current_size c < SIZE_MODULUS ∧
  DeallocatingVector.current_size c
  <= Vector.size (DeallocatingVector.bucket_list c) * ELEMENTS_PER_BLOCK.

(** The state of the [k]-th container and of the free store while a drain
    of a container of [n] elements stands at a position of block [j]: the
    first [j] blocks of [addrs] are released, in order, and their slots are
    null; nothing else has changed since [w0]. *)
Definition drained {ElementT : Type} (w0 : World.t ElementT) (k : nat) (n : Z)
    (addrs : list addr) (j : nat) (w : World.t ElementT) : Prop :=
  World.vectors w
  = <[k := {| DeallocatingVector.current_size := n;
              DeallocatingVector.bucket_list :=
                replicate j None ++ (Some <$> drop j addrs) |}]> (World.vectors w0) ∧
  released (World.mem w) = released (World.mem w0) ++ take j addrs ∧
  (∀ a, a ∈ take j addrs → live (World.mem w) !! a = None) ∧
  (∀ a, a ∉ take j addrs → live (World.mem w) !! a = live (World.mem w0) !! a).

(** What a drain of the whole [k]-th container would have to do to release
    every block of the container: the blocks it holds are appended, in slot
    order, to the log of released blocks. *)
Definition drain_releases_every_block {ElementT : Type} (ELEMENTS_PER_BLOCK : Z)
    (fuel : nat) (w : World.t ElementT) (k : nat) : Prop :=
  ∃ c last w' it,
    World.vectors w !! k = Some c ∧
    Program.dend w k = Ok last ∧
    DeallocatingVectorRemoveIterator.traverse ELEMENTS_PER_BLOCK fuel w
      (Program.dbegin w k) last = Ok (w', it) ∧
    released (World.mem w')
    = released (World.mem w) ++ held (DeallocatingVector.bucket_list c).


(** *** Sample states *)

(** The elements of the sample states stand for [int]: trivially
    constructible, so a new block holds indeterminate values. *)
#[global] Instance Z_default_init : DefaultInit Z := None.

Definition value_of {A : Type} (default : A) (o : outcome A) : A :=
  match o with
  | Ok a => a
  | _ => default
  end.

(** An element type with a default constructor, as a structure whose
    member initialiser gives it the value [42]. It is not an instance:
    it is named where it is meant. *)
Definition member_initialised : DefaultInit Z := Some 42.

(** One container with blocks of four elements and one element pushed. *)
Definition one_pushed : World.t Z :=
  value_of World.empty
    (run 4 0 [Program.Construct; Program.PushBack 0 7] World.empty).

Definition five_pushes : list (Program.op (ElementT := Z)) :=
  [Program.Construct; Program.PushBack 0 10; Program.PushBack 0 20;
   Program.PushBack 0 30; Program.PushBack 0 40; Program.PushBack 0 50].

(** One container with blocks of two elements and five elements pushed. *)
Definition five_pushed : World.t Z :=
  value_of World.empty (run 2 0 five_pushes World.empty).

Definition five_pushed_vector : DeallocatingVector.t :=
  {| DeallocatingVector.current_size := 5;
     DeallocatingVector.bucket_list :=
       [Some 1%positive; Some 2%positive; Some 3%positive] |}.




(** One container with blocks of four elements, one element pushed and
    then [resize(0)]. *)
Definition shrink_program : list (Program.op (ElementT := Z)) :=
  [Program.Construct; Program.PushBack 0 7; Program.Resize 0 0].

Definition shrunk : World.t Z :=
  value_of World.empty (run 4 0 shrink_program World.empty).

Definition shrunk_vector : DeallocatingVector.t :=
  {| DeallocatingVector.current_size := 0;
     DeallocatingVector.bucket_list := [Some 1%positive] |}.

(** A program that uses every mutating operation on two containers. *)
Definition busy_program : list (Program.op (ElementT := Z)) :=
  [Program.Construct; Program.PushBack 0 10; Program.PushBack 0 20;
   Program.EmplaceBack 0 30; Program.Construct; Program.Resize 1 7;
   Program.Reserve 1 1000; Program.Swap 0 1; Program.Clear 1;
   Program.PushBack 1 5; Program.Resize 0 2].

Definition busy_world : World.t Z :=
  value_of World.empty (run 2 8 busy_program World.empty).
End Spec.

(** ** Client loops and well-formed states *)

Module Client.
Import Memory Spec.

(** The read loop of a client over the non-destructive iterator: from
    [first] up to [last], dereference the iterator, read the element and
    increment. The values read are returned in the order of the visit. *)
Fixpoint visit {ElementT : Type} (ELEMENTS_PER_BLOCK : Z) (fuel : nat)
    (w : World.t ElementT) (it last : IteratorState.t) : outcome (list ElementT) :=
  if DeallocatingVectorIterator.equal it last then Ok []
  else match fuel with
       | O => OutOfFuel
       | S fuel' =>
           r ← DeallocatingVectorIterator.dereference ELEMENTS_PER_BLOCK w it;
           v ← load (World.mem w) r;
           vs ← visit ELEMENTS_PER_BLOCK fuel' w
                  (DeallocatingVectorIterator.increment it) last;
           Ok (v :: vs)
       end.

(** A container in a sound state: no slot is null, the container is the
    only owner of its blocks, and the blocks cover its size. *)
Definition well_formed {ElementT : Type} (ELEMENTS_PER_BLOCK : Z)
    (m : memory ElementT) (c : DeallocatingVector.t) : Prop :=
  intact (DeallocatingVector.bucket_list c) ∧
  owns ELEMENTS_PER_BLOCK m (DeallocatingVector.bucket_list c) ∧
  covered ELEMENTS_PER_BLOCK c.

(** No block is held by two containers. *)
Definition disjoint (vs : list DeallocatingVector.t) : Prop :=
  ∀ (k j : nat) c d a,
    vs !! k = Some c → vs !! j = Some d →
    a ∈ held (DeallocatingVector.bucket_list c) →
    a ∈ held (DeallocatingVector.bucket_list d) → k = j.

Definition sound {ElementT : Type} (ELEMENTS_PER_BLOCK : Z)
    (w : World.t ElementT) : Prop :=
  (∀ (k : nat) c, World.vectors w !! k = Some c →
                  well_formed ELEMENTS_PER_BLOCK (World.mem w) c) ∧
  disjoint (World.vectors w).

(** The effect of a member function on the free store is local to the
    container: the blocks it holds afterwards were its own or are new, and
    the blocks of others are as they were. *)
Definition local_effect {ElementT : Type} (ELEMENTS_PER_BLOCK : Z)
    (m : memory ElementT) (c : DeallocatingVector.t)
    (m' : memory ElementT) (c' : DeallocatingVector.t) : Prop :=
  well_formed ELEMENTS_PER_BLOCK m' c' ∧
  (∀ a, a ∈ held (DeallocatingVector.bucket_list c') →
        a ∈ held (DeallocatingVector.bucket_list c) ∨ live m !! a = None) ∧
  (∀ a b, a ∉ held (DeallocatingVector.bucket_list c) →
          live m !! a = Some b → live m' !! a = Some b).




(** *** Further sample states *)

(** [five_pushed_vector] after one more [push_back], which allocates. *)
Definition six_pushed : memory Z * DeallocatingVector.t :=
  value_of (World.mem five_pushed, five_pushed_vector)
    (DeallocatingVector.push_back 2 (World.mem five_pushed) five_pushed_vector 60).

(** [five_pushed_vector] after [resize(9)], which appends two blocks. *)
Definition grown : memory Z * DeallocatingVector.t :=
  value_of (World.mem five_pushed, five_pushed_vector)
    (DeallocatingVector.resize 2 5 (World.mem five_pushed) five_pushed_vector 9).
End Client.

(** * Verification *)

Import Memory Spec.


(** ** Machine integers *)

Lemma wrap_small z : 0 <= z < SIZE_MODULUS → wrap z = z.
Proof. intros. unfold wrap. by apply Z.mod_small. Qed.

Lemma wrap_range z : 0 <= wrap z < SIZE_MODULUS.
Proof. unfold wrap, SIZE_MODULUS. apply Z.mod_pos_bound. lia. Qed.

Lemma wrap_le z : 0 <= z → wrap z <= z.
Proof. intros. unfold wrap, SIZE_MODULUS. apply Z.mod_le; lia. Qed.

Lemma wrap_once z :
  SIZE_MODULUS <= z < 2 * SIZE_MODULUS → wrap z = z - SIZE_MODULUS.
Proof.
  intros. unfold wrap.
  rewrite <- (Z.mod_small (z - SIZE_MODULUS) SIZE_MODULUS) by lia.
  replace z with (z - SIZE_MODULUS + 1 * SIZE_MODULUS) at 1 by lia.
  apply Z.mod_add. unfold SIZE_MODULUS. lia.
Qed.

Lemma wrap_negative z :
  - SIZE_MODULUS <= z < 0 → wrap z = z + SIZE_MODULUS.
Proof.
  intros. unfold wrap.
  rewrite <- (Z.mod_small (z + SIZE_MODULUS) SIZE_MODULUS) by lia.
  replace z with (z + SIZE_MODULUS + (-1) * SIZE_MODULUS) at 1 by lia.
  apply Z.mod_add. unfold SIZE_MODULUS. lia.
Qed.

(** ** Results *)

Lemma bind_Ok {A B} (f : A → outcome B) (x : outcome A) (b : B) :
  x ≫= f = Ok b ↔ ∃ a, x = Ok a ∧ f a = Ok b.
Proof.
  split.
  - destruct x as [a| | |]; simpl; intros H; try discriminate. by exists a.
  - intros (a & -> & H). exact H.
Qed.

(** ** Iterator distance *)

(** C5. For two non-destructive iterators at logical indices [a] and [b]
    whose difference is a [std::ptrdiff_t] value, [a.distance_to(b)] is
    [b - a]: other minus self, not self minus other. *)
Theorem distance_to_other_minus_self (it other : IteratorState.t) :
  0 <= IteratorState.index it < SIZE_MODULUS →
  0 <= IteratorState.index other < SIZE_MODULUS →
  - 2 ^ 63 <= IteratorState.index other - IteratorState.index it < 2 ^ 63 →
  DeallocatingVectorIterator.distance_to it other
  = IteratorState.index other - IteratorState.index it.
Proof.
  intros Ha Hb Hd. unfold DeallocatingVectorIterator.distance_to, to_ptrdiff.
  destruct (Z_lt_ge_dec (IteratorState.index other - IteratorState.index it) 0)
    as [Hneg|Hpos].
  - rewrite wrap_negative by (unfold SIZE_MODULUS in *; lia).
    case_decide; unfold SIZE_MODULUS in *; lia.
  - rewrite wrap_small by (unfold SIZE_MODULUS in *; lia).
    case_decide; unfold SIZE_MODULUS in *; lia.
Qed.

Lemma distance_to_other_minus_self_witness :
  DeallocatingVectorIterator.distance_to
    (IteratorState.make 5 (Some 0%nat)) (IteratorState.make 2 (Some 0%nat)) = -3.
Proof.
  apply (distance_to_other_minus_self
           (IteratorState.make 5 (Some 0%nat)) (IteratorState.make 2 (Some 0%nat)));
    unfold SIZE_MODULUS; simpl; lia.
Defined.

(** ** [reserve] *)

(** C6. [reserve(n)] does nothing, for every state and every [n]: the size,
    the capacity, the block sequence, the free store and every element are
    what they were. *)
Theorem reserve_is_noop {ElementT : Type} (ELEMENTS_PER_BLOCK : Z)
    (m : Memory.memory ElementT) (c : DeallocatingVector.t) (n : Z) :
  let '(m', c') := DeallocatingVector.reserve m c n in
  m' = m ∧
  DeallocatingVector.size c' = DeallocatingVector.size c ∧
  DeallocatingVector.capacity ELEMENTS_PER_BLOCK c'
  = DeallocatingVector.capacity ELEMENTS_PER_BLOCK c ∧
  DeallocatingVector.bucket_list c' = DeallocatingVector.bucket_list c ∧
  ∀ i, DeallocatingVector.subscript ELEMENTS_PER_BLOCK m' c' i
       = DeallocatingVector.subscript ELEMENTS_PER_BLOCK m c i ∧
       DeallocatingVector.read ELEMENTS_PER_BLOCK m' c' i
       = DeallocatingVector.read ELEMENTS_PER_BLOCK m c i.
Proof. unfold DeallocatingVector.reserve. repeat split. Qed.


(** ** Checked and unchecked block lookup *)

Lemma get_beyond {A : Type} (l : list A) (i : Z) :
  i >= Vector.size l → Vector.get l i = None.
Proof.
  intros H. unfold Vector.get, Vector.size in *. case_decide; [|done].
  apply lookup_ge_None. lia.
Qed.

Lemma subscript_never_throws {ElementT : Type} (ELEMENTS_PER_BLOCK : Z)
    (m : Memory.memory ElementT) (c : DeallocatingVector.t) (i : Z) :
  DeallocatingVector.subscript ELEMENTS_PER_BLOCK m c i ≠ Throw.
Proof.
  unfold DeallocatingVector.subscript, Vector.subscript, Memory.element.
  destruct (Vector.get _ _) as [[a|]|]; simpl; try done.
  destruct (Memory.live m !! a); [case_decide|]; done.
Qed.

(** C10. When the block index [i / ELEMENTS_PER_BLOCK] of an iterator is not
    below the number of block slots of its container, [dereference] of both
    iterator kinds raises the out-of-range exception of the checked lookup
    and returns no reference; [operator[]] makes no such check, at that
    index (where it is undefined behaviour) or at any other. *)
Theorem dereference_checked_subscript_unchecked {ElementT : Type}
    (ELEMENTS_PER_BLOCK : Z) (w : World.t ElementT) (k : nat)
    (c : DeallocatingVector.t) (it : IteratorState.t) :
  IteratorState.bucket_list it = Some k →
  World.vectors w !! k = Some c →
  IteratorState.index it / ELEMENTS_PER_BLOCK
    >= Vector.size (DeallocatingVector.bucket_list c) →
  DeallocatingVectorIterator.dereference ELEMENTS_PER_BLOCK w it = Throw ∧
  DeallocatingVectorRemoveIterator.dereference ELEMENTS_PER_BLOCK w it = Throw ∧
  DeallocatingVector.subscript ELEMENTS_PER_BLOCK (World.mem w) c
    (IteratorState.index it) = Undefined ∧
  ∀ i, DeallocatingVector.subscript ELEMENTS_PER_BLOCK (World.mem w) c i ≠ Throw.
Proof.
  intros Hp Hc Hi. apply get_beyond in Hi.
  unfold DeallocatingVectorIterator.dereference,
    DeallocatingVectorRemoveIterator.dereference, DeallocatingVector.subscript,
    World.pointee, Vector.at_, Vector.subscript.
  rewrite Hp, Hc. simpl. rewrite Hi. simpl.
  repeat split. apply subscript_never_throws.
Qed.

(** ** The free store *)

Section MemoryFacts.
Context {ElementT : Type} `{!DefaultInit ElementT}.
Implicit Types (m : memory ElementT) (a : addr).

Lemma new_array_fresh n m :
  live m !! (new_array n m).1 = None ∧ (new_array n m).1 ∉ released m.
Proof.
  unfold new_array. simpl.
  pose proof (is_fresh (dom (live m) ∪ list_to_set (released m))) as Hf.
  split.
  - apply not_elem_of_dom. set_solver.
  - set_solver.
Qed.

(** A default-initialised array holds the default value, if the type has
    one, in each of its elements and nothing outside. *)
Lemma lookup_default_cells (n o : Z) :
  default_cells (ElementT := ElementT) n !! o
  = if decide (0 <= o < n) then default_init else None.
Proof.
  unfold default_cells. destruct default_init as [d|].
  - rewrite lookup_gset_to_gmap. case_decide as Ho.
    + rewrite option_guard_True; [done|].
      apply elem_of_list_to_set, elem_of_seqZ. lia.
    + rewrite option_guard_False; [done|].
      rewrite elem_of_list_to_set, elem_of_seqZ. lia.
  - rewrite lookup_empty. by case_decide.
Qed.

Lemma new_array_live n m a :
  live (new_array n m).2 !! a
  = if decide ((new_array n m).1 = a)
    then Some {| extent := n; cells := default_cells n |} else live m !! a.
Proof. unfold new_array. simpl. apply lookup_insert. Qed.

Lemma new_array_released n m : released (new_array n m).2 = released m.
Proof. done. Qed.

Lemma new_array_keeps n m a b :
  live m !! a = Some b → live (new_array n m).2 !! a = Some b.
Proof.
  intros H. rewrite new_array_live. case_decide as Heq; [|done].
  destruct (new_array_fresh n m) as [Hf _]. congruence.
Qed.

Lemma element_Ok m p o r :
  element m p o = Ok r ↔
  ∃ a b, p = Some a ∧ r = (a, o) ∧ live m !! a = Some b ∧ 0 <= o < extent b.
Proof.
  unfold element. split.
  - destruct p as [a|]; [|done]. destruct (live m !! a) as [b|] eqn:Hb; [|done].
    case_decide; [|done]. intros [= <-]. by exists a, b.
  - intros (a & b & -> & -> & Hb & Ho). rewrite Hb. by rewrite decide_True.
Qed.

Lemma load_Ok m r v :
  load m r = Ok v ↔ ∃ b, live m !! r.1 = Some b ∧ cells b !! r.2 = Some v.
Proof.
  unfold load. split.
  - destruct (live m !! r.1) as [b|]; [|done].
    destruct (cells b !! r.2) as [v'|] eqn:Hv; [|done].
    intros [= <-]. by exists b.
  - intros (b & -> & ->). done.
Qed.

Lemma store_Ok m r v b :
  live m !! r.1 = Some b →
  store m r v
  = Ok {| live := <[r.1 := {| extent := extent b; cells := <[r.2 := v]> (cells b) |}]>
                    (live m);
          released := released m |}.
Proof. intros H. unfold store. by rewrite H. Qed.
End MemoryFacts.

(** ** Element access *)

Section Access.
Context {ElementT : Type} (EPB : Z).
Implicit Types (m : memory ElementT) (c : DeallocatingVector.t).

Lemma get_Some {A : Type} (l : list A) (i : Z) (x : A) :
  Vector.get l i = Some x ↔ 0 <= i ∧ l !! Z.to_nat i = Some x.
Proof. unfold Vector.get. case_decide; [tauto|]. split; [done|]. tauto. Qed.

Lemma subscript_Ok m c i r :
  DeallocatingVector.subscript EPB m c i = Ok r ↔
  ∃ a b, 0 <= i / EPB ∧
         DeallocatingVector.bucket_list c !! Z.to_nat (i / EPB) = Some (Some a) ∧
         live m !! a = Some b ∧ 0 <= i mod EPB < extent b ∧ r = (a, i mod EPB).
Proof.
  unfold DeallocatingVector.subscript. rewrite bind_Ok. split.
  - intros (p & Hp & He). unfold Vector.subscript in Hp.
    destruct (Vector.get _ _) as [p'|] eqn:Hg; [|done].
    injection Hp as ->. apply get_Some in Hg as [H0 Hl].
    apply element_Ok in He as (a & b & -> & -> & Hb & Ho). by exists a, b.
  - intros (a & b & H0 & Hl & Hb & Ho & ->). exists (Some a). split.
    + unfold Vector.subscript.
      by rewrite (proj2 (get_Some _ _ (Some a)) (conj H0 Hl)).
    + apply element_Ok. by exists a, b.
Qed.

Lemma read_Ok m c i v :
  DeallocatingVector.read EPB m c i = Ok v ↔
  ∃ a b, 0 <= i / EPB ∧
         DeallocatingVector.bucket_list c !! Z.to_nat (i / EPB) = Some (Some a) ∧
         live m !! a = Some b ∧ 0 <= i mod EPB < extent b ∧
         cells b !! (i mod EPB) = Some v.
Proof.
  unfold DeallocatingVector.read. rewrite bind_Ok. split.
  - intros (r & Hr & Hv). apply subscript_Ok in Hr as (a & b & H0 & Hl & Hb & Ho & ->).
    apply load_Ok in Hv as (b' & Hb' & Hv). simpl in *.
    assert (b' = b) as -> by congruence. by exists a, b.
  - intros (a & b & H0 & Hl & Hb & Ho & Hv). exists (a, i mod EPB). split.
    + apply subscript_Ok. by exists a, b.
    + apply load_Ok. by exists b.
Qed.
End Access.

Lemma held_fmap_Some (addrs : list addr) : held (Some <$> addrs) = addrs.
Proof.
  unfold held. induction addrs as [|a addrs IH]; simpl; [done|]. f_equal. exact IH.
Qed.

Lemma held_app (bl1 bl2 : list (option addr)) : held (bl1 ++ bl2) = held bl1 ++ held bl2.
Proof. unfold held. apply omap_app. Qed.

Lemma intact_owns {ElementT : Type} (EPB : Z) (m : memory ElementT)
    (bl : list (option addr)) :
  intact bl ∧ owns EPB m bl ↔
  ∃ addrs, bl = Some <$> addrs ∧ NoDup addrs ∧
           ∀ a, a ∈ addrs → ∃ b, live m !! a = Some b ∧ extent b = EPB.
Proof.
  unfold intact, owns. split.
  - intros (Hi & Hn & Hl). by exists (held bl).
  - intros (addrs & -> & Hn & Hl). by rewrite held_fmap_Some.
Qed.

(** ** [push_back] *)

Section PushBack.
Context {ElementT : Type} (EPB : Z) (HEPB : 0 < EPB < SIZE_MODULUS).
Implicit Types (m : memory ElementT) (c : DeallocatingVector.t).

(** The test [current_size == capacity()] is exact although [capacity()] is
    computed modulo [2^64]. *)
Lemma full_iff_capacity (k blocks : Z) :
  tight EPB k blocks → 0 <= k < SIZE_MODULUS →
  k = wrap (blocks * EPB) ↔ k = blocks * EPB.
Proof.
  intros [Hle Hup] Hk.
  destruct (Z_lt_ge_dec (blocks * EPB) SIZE_MODULUS) as [Hs|Hb].
  - rewrite wrap_small by lia. done.
  - assert (blocks * EPB < k + EPB) as Hlt by (destruct Hup; [done|nia]).
    rewrite wrap_once by lia. lia.
Qed.

(** The assignment [bucket_list.back()[current_index] = element] when the
    last block is the block of position [k]. *)
Lemma push_back_store m (addrs : list addr) (vs : list ElementT) (v : ElementT)
    (sz : Z) :
  let k := Z.of_nat (length vs) in
  NoDup addrs →
  (∀ a, a ∈ addrs → ∃ b, live m !! a = Some b ∧ extent b = EPB) →
  Z.of_nat (length addrs) - 1 = k / EPB →
  (∀ i x, vs !! i = Some x →
     DeallocatingVector.read EPB m
       {| DeallocatingVector.current_size := sz;
          DeallocatingVector.bucket_list := Some <$> addrs |} (Z.of_nat i) = Ok x) →
  ∃ al m2,
    Vector.back (Some <$> addrs) = Ok (Some al) ∧
    element m (Some al) (k mod EPB) = Ok (al, k mod EPB) ∧
    store m (al, k mod EPB) v = Ok m2 ∧
    released m2 = released m ∧
    (∀ a, a ∈ addrs → ∃ b, live m2 !! a = Some b ∧ extent b = EPB) ∧
    ∀ sz' i x, (vs ++ [v]) !! i = Some x →
      DeallocatingVector.read EPB m2
        {| DeallocatingVector.current_size := sz';
           DeallocatingVector.bucket_list := Some <$> addrs |} (Z.of_nat i) = Ok x.
Proof.
  intros k Hnd Hlive Hlast Hreads.
  assert (k = Z.of_nat (length vs)) as Hk by done. clearbody k.
  assert (0 <= k / EPB) as Hq by (apply Z.div_pos; lia).
  assert (0 <= k mod EPB < EPB) as Hr by (apply Z.mod_pos_bound; lia).
  assert (∃ al, addrs !! Z.to_nat (k / EPB) = Some al) as [al Hal].
  { apply lookup_lt_is_Some. lia. }
  assert (last (Some <$> addrs) = Some (Some al)) as Hback.
  { rewrite last_lookup, length_fmap, list_lookup_fmap.
    replace (Nat.pred (length addrs)) with (Z.to_nat (k / EPB)) by lia.
    by rewrite Hal. }
  destruct (Hlive al) as (bl & Hbl & Hext); [by eapply list_elem_of_lookup_2|].
  exists al, {| live := <[al := {| extent := extent bl;
                               cells := <[k mod EPB := v]> (cells bl) |}]> (live m);
            released := released m |}.
  split; [|split; [|split; [|split; [done|split]]]].
  - unfold Vector.back. by rewrite Hback.
  - unfold element. by rewrite Hbl, decide_True by lia.
  - by rewrite (store_Ok _ _ _ bl).
  - intros a Ha. simpl. destruct (decide (al = a)) as [->|Hne].
    + rewrite lookup_insert_eq. eauto.
    + rewrite lookup_insert_ne by done. by apply Hlive.
  - intros sz' i x Hi. apply read_Ok. simpl.
    destruct (decide (i = length vs)) as [->|Hne].
    + rewrite lookup_app_r, Nat.sub_diag in Hi by lia. injection Hi as <-.
      exists al, {| extent := extent bl; cells := <[k mod EPB := v]> (cells bl) |}.
      rewrite <- Hk, list_lookup_fmap, Hal, !lookup_insert_eq. simpl.
      repeat split; try done; try lia. by rewrite lookup_insert_eq.
    + assert (i < length vs)%nat as Hlt.
      { apply lookup_lt_Some in Hi. rewrite length_app in Hi. simpl in Hi. lia. }
      rewrite lookup_app_l in Hi by done.
      apply Hreads, read_Ok in Hi as (a & b & H0 & Hl & Hb & Ho & Hv).
      simpl in Hl. rewrite list_lookup_fmap in Hl.
      destruct (addrs !! Z.to_nat (Z.of_nat i / EPB)) as [a'|] eqn:Ha'; [|done].
      injection Hl as ->.
      destruct (decide (al = a)) as [->|Hna].
      * exists a, {| extent := extent bl; cells := <[k mod EPB := v]> (cells bl) |}.
        assert (b = bl) as -> by congruence.
        rewrite list_lookup_fmap, Ha', lookup_insert_eq. simpl.
        repeat split; try done; try lia.
        rewrite lookup_insert_ne; [done|].
        pose proof (NoDup_lookup _ _ _ _ Hnd Ha' Hal) as Heq.
        assert (Z.of_nat i / EPB = k / EPB) as Hdiv by lia.
        pose proof (Z.div_mod (Z.of_nat i) EPB ltac:(lia)).
        pose proof (Z.div_mod k EPB ltac:(lia)). lia.
      * exists a, b. rewrite list_lookup_fmap, Ha', lookup_insert_ne by done.
        done.
Qed.
End PushBack.

Section PushBackStep.
Context {ElementT : Type} `{!DefaultInit ElementT} (EPB : Z) (HEPB : 0 < EPB < SIZE_MODULUS).
Implicit Types (m : memory ElementT) (c : DeallocatingVector.t).

Lemma emplace_back_push_back m c (v : ElementT) :
  DeallocatingVector.emplace_back EPB m c v = DeallocatingVector.push_back EPB m c v.
Proof. reflexivity. Qed.

(** Reads do not see a block appended to the bucket list. *)
Lemma read_new_block m (addrs : list addr) (sz sz' i : Z) (x : ElementT) :
  DeallocatingVector.read EPB m
    {| DeallocatingVector.current_size := sz;
       DeallocatingVector.bucket_list := Some <$> addrs |} i = Ok x →
  DeallocatingVector.read EPB (new_array EPB m).2
    {| DeallocatingVector.current_size := sz';
       DeallocatingVector.bucket_list := Some <$> (addrs ++ [(new_array EPB m).1]) |} i
  = Ok x.
Proof.
  rewrite !read_Ok. simpl. intros (a & b & H0 & Hl & Hb & Ho & Hv).
  exists a, b. repeat split; try done; try lia.
  - rewrite fmap_app. by apply lookup_app_l_Some.
  - by apply new_array_keeps.
Qed.

Lemma push_back_step m c (vs : list ElementT) (v : ElementT) :
  stores EPB m c vs →
  Z.of_nat (length vs) + 1 < SIZE_MODULUS →
  ∃ m' c', DeallocatingVector.push_back EPB m c v = Ok (m', c') ∧
           stores EPB m' c' (vs ++ [v]).
Proof.
  intros (Hsz & Hint & Hown & Htight & Hreads) Hk.
  destruct (proj1 (intact_owns EPB m _) (conj Hint Hown)) as (addrs & Hbl & Hnd & Hlive).
  destruct c as [sz bl]. simpl in *. subst sz bl.
  unfold Vector.size in Htight. rewrite length_fmap in Htight.
  set (k := Z.of_nat (length vs)) in *.
  assert (0 <= k) as Hk0 by lia.
  unfold DeallocatingVector.push_back, DeallocatingVector.capacity,
    DeallocatingVector.size, Vector.size.
  cbn [DeallocatingVector.current_size DeallocatingVector.bucket_list].
  rewrite length_fmap.
  pose proof (full_iff_capacity EPB HEPB k _ Htight ltac:(lia)) as Hfull.
  assert (wrap (k + 1) = k + 1) as Hw by (apply wrap_small; lia).
  destruct Htight as [Hle Hup].
  case_decide as Hcap.
  - apply Hfull in Hcap.
    destruct (new_array_fresh EPB m) as [Hfresh _].
    pose proof (new_array_live EPB m) as Hnew.
    destruct (new_array EPB m) as [a m1] eqn:Hna. simpl in Hfresh, Hnew.
    cbv beta iota.
    assert (a ∉ addrs) as Hnotin.
    { intros Hin. destruct (Hlive a Hin) as (b & Hb & _). congruence. }
    destruct (push_back_store EPB HEPB m1 (addrs ++ [a]) vs v k)
      as (al & m2 & Hback & Helem & Hstore & Hrel & Hlive2 & Hreads2).
    + apply NoDup_app. split; [done|]. split; [|apply NoDup_singleton].
      intros x Hx Hx'. apply list_elem_of_singleton in Hx'. by subst.
    + intros x Hx. rewrite Hnew. case_decide; [eauto|].
      apply elem_of_app in Hx as [Hx|Hx]; [by apply Hlive|].
      apply list_elem_of_singleton in Hx. by subst.
    + rewrite length_app. simpl. fold k. rewrite Hcap.
      rewrite Z.div_mul by lia. lia.
    + intros i x Hi. apply Hreads in Hi.
      pose proof (read_new_block m addrs k k _ _ Hi) as Hr. by rewrite Hna in Hr.
    + replace ((Some <$> addrs) ++ [Some a]) with (Some <$> (addrs ++ [a]))
        by (by rewrite fmap_app).
      fold k in Helem, Hstore.
      rewrite Hback. cbn [mbind outcome_bind]. rewrite Helem.
      cbn [mbind outcome_bind]. rewrite Hstore. cbn [mbind outcome_bind].
      eexists _, _. split; [done|].
      split; [simpl; rewrite Hw, length_app; simpl; lia|].
      split; [simpl; unfold intact; by rewrite held_fmap_Some|].
      split; [simpl; unfold owns; rewrite held_fmap_Some; split; [|done]|].
      { apply NoDup_app. split; [done|]. split; [|apply NoDup_singleton].
        intros x Hx Hx'. apply list_elem_of_singleton in Hx'. by subst. }
      split; [|by apply Hreads2].
      simpl. unfold Vector.size, tight.
      rewrite length_fmap, !length_app. simpl. lia.
  - assert (k < Z.of_nat (length addrs) * EPB) as Hlt by lia.
    destruct (push_back_store EPB HEPB m addrs vs v k Hnd Hlive)
      as (al & m2 & Hback & Helem & Hstore & Hrel & Hlive2 & Hreads2).
    + fold k.
      apply (Z.div_unique k EPB _ (k - (Z.of_nat (length addrs) - 1) * EPB)); lia.
    + done.
    + fold k in Helem, Hstore.
      rewrite Hback. cbn [mbind outcome_bind]. rewrite Helem.
      cbn [mbind outcome_bind]. rewrite Hstore. cbn [mbind outcome_bind].
      eexists _, _. split; [done|].
      split; [simpl; rewrite Hw, length_app; simpl; lia|].
      split; [simpl; unfold intact; by rewrite held_fmap_Some|].
      split; [simpl; unfold owns; by rewrite held_fmap_Some|].
      split; [|by apply Hreads2].
      simpl. unfold Vector.size, tight.
      rewrite length_fmap, !length_app. simpl. lia.
Qed.
End PushBackStep.

Section PushAll.
Context {ElementT : Type} `{!DefaultInit ElementT} (EPB : Z) (HEPB : 0 < EPB < SIZE_MODULUS).
Implicit Types (m : memory ElementT) (c : DeallocatingVector.t).

Lemma construct_stores m0 :
  stores EPB (DeallocatingVector.construct EPB m0).1
    (DeallocatingVector.construct EPB m0).2 [].
Proof.
  unfold DeallocatingVector.construct.
  pose proof (new_array_live EPB m0) as Hnew.
  destruct (new_array EPB m0) as [a m1]. simpl in *.
  split; [done|]. split; [done|]. split; [|split].
  - split; [apply NoDup_singleton|]. intros x Hx.
    apply list_elem_of_singleton in Hx as ->.
    rewrite Hnew, decide_True by done. eauto.
  - unfold tight, Vector.size. simpl. lia.
  - intros i v Hi. done.
Qed.

Lemma push_all_stores (vs done : list ElementT) m c :
  stores EPB m c done →
  Z.of_nat (length done) + Z.of_nat (length vs) < SIZE_MODULUS →
  ∃ m' c', push_all EPB vs (m, c) = Ok (m', c') ∧ stores EPB m' c' (done ++ vs).
Proof.
  revert done m c. induction vs as [|v vs IH]; intros done m c Hst Hlen.
  - exists m, c. by rewrite app_nil_r.
  - simpl in Hlen.
    destruct (push_back_step EPB HEPB m c done v Hst) as (m1 & c1 & Hpush & Hst1);
      [lia|].
    destruct (IH (done ++ [v]) m1 c1 Hst1) as (m' & c' & Hall & Hst').
    { rewrite length_app. simpl. lia. }
    exists m', c'. split.
    + simpl. rewrite Hpush. exact Hall.
    + by rewrite <- app_assoc in Hst'.
Qed.
End PushAll.

(** C3. After [N] consecutive [push_back] calls with the values
    [v_0 .. v_(N-1)] on a newly constructed container, [size()] is [N] and
    [operator[](i)] refers to an element equal to [v_i], for every [i < N]. *)
Theorem push_back_sequence {ElementT : Type} `{!DefaultInit ElementT}
    (ELEMENTS_PER_BLOCK : Z)
    (m0 : memory ElementT) (vs : list ElementT) :
  0 < ELEMENTS_PER_BLOCK < SIZE_MODULUS →
  Z.of_nat (length vs) < SIZE_MODULUS →
  ∃ m c,
    push_all ELEMENTS_PER_BLOCK vs (DeallocatingVector.construct ELEMENTS_PER_BLOCK m0)
    = Ok (m, c) ∧
    DeallocatingVector.size c = Z.of_nat (length vs) ∧
    ∀ i v, vs !! i = Some v →
           DeallocatingVector.read ELEMENTS_PER_BLOCK m c (Z.of_nat i) = Ok v.
Proof.
  intros HEPB Hlen.
  pose proof (construct_stores ELEMENTS_PER_BLOCK HEPB m0) as Hst.
  destruct (DeallocatingVector.construct ELEMENTS_PER_BLOCK m0) as [m1 c1].
  destruct (push_all_stores ELEMENTS_PER_BLOCK HEPB vs [] m1 c1 Hst)
    as (m & c & Hall & Hsz & _ & _ & _ & Hreads); [simpl; lia|].
  exists m, c. done.
Qed.

Lemma push_back_sequence_witness :
  ∃ m c,
    push_all 2 [10; 20; 30; 40; 50] (DeallocatingVector.construct 2 Memory.empty)
    = Ok (m, c) ∧
    DeallocatingVector.size c = 5 ∧
    ∀ i v, [10; 20; 30; 40; 50] !! i = Some v →
           DeallocatingVector.read 2 m c (Z.of_nat i) = Ok v.
Proof.
  apply (push_back_sequence 2 Memory.empty [10; 20; 30; 40; 50]);
    unfold SIZE_MODULUS; simpl; lia.
Defined.

Example push_back_five :
  (s ← push_all 2 [10; 20; 30; 40; 50] (DeallocatingVector.construct 2 Memory.empty);
   Ok (DeallocatingVector.size s.2,
       DeallocatingVector.bucket_list s.2,
       DeallocatingVector.read 2 s.1 s.2 0,
       DeallocatingVector.read 2 s.1 s.2 3,
       DeallocatingVector.read 2 s.1 s.2 4,
       DeallocatingVector.read 2 s.1 s.2 5))
  = Ok (5, [Some 1%positive; Some 2%positive; Some 3%positive],
        Ok 10, Ok 40, Ok 50, Undefined).
Proof. vm_compute. reflexivity. Qed.

(** ** [resize], growing *)

Section ResizeGrow.
Context {ElementT : Type} `{!DefaultInit ElementT} (EPB : Z) (HEPB : 0 < EPB < SIZE_MODULUS).
Implicit Types (m : memory ElementT) (c : DeallocatingVector.t).

Lemma resize_grow_unfold fuel new_size m c :
  DeallocatingVector.resize_grow EPB fuel new_size m c
  = if decide (DeallocatingVector.capacity EPB c < new_size) then
      match fuel with
      | O => OutOfFuel
      | S fuel' =>
          DeallocatingVector.resize_grow EPB fuel' new_size (new_array EPB m).2
            {| DeallocatingVector.current_size := DeallocatingVector.current_size c;
               DeallocatingVector.bucket_list :=
                 DeallocatingVector.bucket_list c ++ [Some (new_array EPB m).1] |}
      end
    else Ok (m, c).
Proof. destruct fuel; reflexivity. Qed.

(** Whenever the loop ends, the capacity covers the requested size. *)
Lemma resize_grow_result fuel new_size m c m' c' :
  DeallocatingVector.resize_grow EPB fuel new_size m c = Ok (m', c') →
  DeallocatingVector.current_size c' = DeallocatingVector.current_size c ∧
  new_size <= DeallocatingVector.capacity EPB c'.
Proof.
  revert m c. induction fuel as [|fuel IH]; intros m c;
    rewrite resize_grow_unfold; case_decide as Hcap; try done.
  - intros [= <- <-]. lia.
  - intros H. apply IH in H as [Hsz Hc]. done.
  - intros [= <- <-]. lia.
Qed.

Lemma capacity_append c p :
  DeallocatingVector.capacity EPB c + EPB < SIZE_MODULUS →
  DeallocatingVector.capacity EPB
    {| DeallocatingVector.current_size := DeallocatingVector.current_size c;
       DeallocatingVector.bucket_list := DeallocatingVector.bucket_list c ++ [p] |}
  = DeallocatingVector.capacity EPB c + EPB.
Proof.
  unfold DeallocatingVector.capacity, Vector.size. simpl. intros H.
  rewrite length_app. simpl.
  replace (Z.of_nat (length (DeallocatingVector.bucket_list c) + 1) * EPB)
    with (Z.of_nat (length (DeallocatingVector.bucket_list c)) * EPB + EPB) by lia.
  unfold wrap in *. rewrite <- Z.add_mod_idemp_l by (unfold SIZE_MODULUS; lia).
  apply Z.mod_small. split; [|done].
  pose proof (wrap_range (Z.of_nat (length (DeallocatingVector.bucket_list c)) * EPB)).
  unfold wrap in *. lia.
Qed.

(** With enough fuel the loop ends; it only appends new blocks. *)
Lemma resize_grow_spec fuel new_size m c :
  new_size + EPB <= SIZE_MODULUS →
  new_size - DeallocatingVector.capacity EPB c <= Z.of_nat fuel * EPB →
  ∃ m' extra,
    DeallocatingVector.resize_grow EPB fuel new_size m c
    = Ok (m', {| DeallocatingVector.current_size := DeallocatingVector.current_size c;
                 DeallocatingVector.bucket_list :=
                   DeallocatingVector.bucket_list c ++ extra |}) ∧
    live m ⊆ live m' ∧ released m' = released m.
Proof.
  intros Hns. revert m c. induction fuel as [|fuel IH]; intros m c Hfuel;
    rewrite resize_grow_unfold; case_decide as Hcap.
  - lia.
  - exists m, []. rewrite app_nil_r. by destruct c.
  - destruct (IH (new_array EPB m).2
                {| DeallocatingVector.current_size := DeallocatingVector.current_size c;
                   DeallocatingVector.bucket_list :=
                     DeallocatingVector.bucket_list c ++ [Some (new_array EPB m).1] |})
      as (m' & extra & Hrun & Hsub & Hrel).
    { rewrite capacity_append by lia. lia. }
    exists m', (Some (new_array EPB m).1 :: extra). split; [|split].
    + rewrite Hrun. simpl. by rewrite <- app_assoc.
    + etrans; [|exact Hsub]. unfold new_array at 1. simpl.
      apply insert_subseteq. apply (new_array_fresh EPB m).
    + by rewrite Hrel.
  - exists m, []. rewrite app_nil_r. by destruct c.
Qed.

(** References and values that [operator[]] gave stay valid when blocks
    are appended and arrays are added to the free store. *)
Lemma subscript_frame m m' c (extra : list (option addr)) (sz i : Z) (r : addr * Z) :
  live m ⊆ live m' →
  DeallocatingVector.subscript EPB m c i = Ok r →
  DeallocatingVector.subscript EPB m'
    {| DeallocatingVector.current_size := sz;
       DeallocatingVector.bucket_list := DeallocatingVector.bucket_list c ++ extra |} i
  = Ok r.
Proof.
  intros Hsub. rewrite !subscript_Ok. simpl.
  intros (a & b & H0 & Hl & Hb & Ho & ->). exists a, b.
  repeat split; try done; try lia.
  - by apply lookup_app_l_Some.
  - by eapply lookup_weaken.
Qed.

Lemma read_frame m m' c (extra : list (option addr)) (sz i : Z) (v : ElementT) :
  live m ⊆ live m' →
  DeallocatingVector.read EPB m c i = Ok v →
  DeallocatingVector.read EPB m'
    {| DeallocatingVector.current_size := sz;
       DeallocatingVector.bucket_list := DeallocatingVector.bucket_list c ++ extra |} i
  = Ok v.
Proof.
  intros Hsub. rewrite !read_Ok. simpl.
  intros (a & b & H0 & Hl & Hb & Ho & Hv). exists a, b.
  repeat split; try done; try lia.
  - by apply lookup_app_l_Some.
  - by eapply lookup_weaken.
Qed.
End ResizeGrow.

(** C7. [resize(new_size)] with [new_size >= old_size]: every reference and
    every value that [operator[](i)] gave for [i < old_size] is the same
    afterwards, [size()] is [new_size] and [capacity()] is at least
    [new_size]. The loop ends as soon as the fuel covers [new_size]. *)
Theorem resize_grow_preserves {ElementT : Type} `{!DefaultInit ElementT}
    (ELEMENTS_PER_BLOCK : Z)
    (m : memory ElementT) (c : DeallocatingVector.t) (new_size : Z) (fuel : nat) :
  0 < ELEMENTS_PER_BLOCK < SIZE_MODULUS →
  DeallocatingVector.size c <= new_size →
  new_size + ELEMENTS_PER_BLOCK <= SIZE_MODULUS →
  new_size <= Z.of_nat fuel * ELEMENTS_PER_BLOCK →
  ∃ m' c',
    DeallocatingVector.resize ELEMENTS_PER_BLOCK fuel m c new_size = Ok (m', c') ∧
    DeallocatingVector.size c' = new_size ∧
    new_size <= DeallocatingVector.capacity ELEMENTS_PER_BLOCK c' ∧
    ∀ i, 0 <= i < DeallocatingVector.size c →
      (∀ r, DeallocatingVector.subscript ELEMENTS_PER_BLOCK m c i = Ok r →
            DeallocatingVector.subscript ELEMENTS_PER_BLOCK m' c' i = Ok r) ∧
      (∀ v, DeallocatingVector.read ELEMENTS_PER_BLOCK m c i = Ok v →
            DeallocatingVector.read ELEMENTS_PER_BLOCK m' c' i = Ok v).
Proof.
  intros HEPB Hge Hns Hfuel. unfold DeallocatingVector.size in *.
  destruct (resize_grow_spec ELEMENTS_PER_BLOCK HEPB fuel new_size m c Hns)
    as (m' & extra & Hrun & Hsub & Hrel).
  { pose proof (wrap_range (Vector.size (DeallocatingVector.bucket_list c)
                            * ELEMENTS_PER_BLOCK)).
    unfold DeallocatingVector.capacity. lia. }
  pose proof (resize_grow_result ELEMENTS_PER_BLOCK _ _ _ _ _ _ Hrun) as [_ Hcap].
  unfold DeallocatingVector.resize. rewrite decide_True by lia. rewrite Hrun.
  cbn [mbind outcome_bind DeallocatingVector.bucket_list].
  eexists _, _. split; [done|]. split; [done|]. split; [exact Hcap|].
  intros i Hi. split.
  - intros r Hr. by apply (subscript_frame ELEMENTS_PER_BLOCK m m' c extra).
  - intros v Hv. by apply (read_frame ELEMENTS_PER_BLOCK m m' c extra).
Qed.

(** ** The capacity invariant *)

Section Covered.
Context {ElementT : Type} `{!DefaultInit ElementT} (EPB : Z) (HEPB : 0 < EPB < SIZE_MODULUS).
Implicit Types (m : memory ElementT) (c : DeallocatingVector.t).
Implicit Types (w : World.t ElementT) (o : Program.op (ElementT := ElementT)).

Lemma vector_resize_length (n : Z) (l : list (option addr)) :
  length (Vector.resize n l) = Z.to_nat n.
Proof.
  unfold Vector.resize. rewrite length_app, length_take, length_replicate. lia.
Qed.

Lemma construct_covered m : covered EPB (DeallocatingVector.construct EPB m).2.
Proof.
  unfold DeallocatingVector.construct, covered, Vector.size.
  destruct (new_array EPB m). simpl. unfold SIZE_MODULUS in *. lia.
Qed.

Lemma push_back_covered m c (v : ElementT) m' c' :
  covered EPB c →
  DeallocatingVector.push_back EPB m c v = Ok (m', c') →
  covered EPB c'.
Proof.
  intros [Hrange Hcov]. unfold DeallocatingVector.push_back.
  set (bl := DeallocatingVector.bucket_list c) in *.
  set (s := DeallocatingVector.current_size c) in *.
  assert (0 <= Vector.size bl * EPB) as Hnn by (unfold Vector.size; nia).
  pose proof (wrap_range (s + 1)) as Hw.
  pose proof (wrap_le (s + 1) ltac:(lia)) as Hwle.
  pose proof (wrap_le _ Hnn) as Hcle.
  unfold DeallocatingVector.capacity. fold bl.
  case_decide as Hfull.
  - destruct (new_array EPB m) as [a m1].
    intros H. apply bind_Ok in H as (p & _ & H). apply bind_Ok in H as (r & _ & H).
    apply bind_Ok in H as (m2 & _ & H). injection H as <- <-.
    split; [done|]. simpl. unfold Vector.size in *. rewrite length_app. simpl. lia.
  - intros H. apply bind_Ok in H as (p & _ & H). apply bind_Ok in H as (r & _ & H).
    apply bind_Ok in H as (m2 & _ & H). injection H as <- <-.
    split; [done|]. simpl.
    destruct (decide (s + 1 = SIZE_MODULUS)) as [Heq|Hne].
    + rewrite Heq. unfold wrap. rewrite Z.mod_same by (unfold SIZE_MODULUS; lia). done.
    + rewrite wrap_small by lia.
      destruct (decide (s = Vector.size bl * EPB)) as [Hs|Hs]; [|lia].
      rewrite <- Hs, wrap_small in Hfull by lia. done.
Qed.

Lemma resize_covered fuel m c (new_size : Z) m' c' :
  0 <= new_size < SIZE_MODULUS →
  covered EPB c →
  DeallocatingVector.resize EPB fuel m c new_size = Ok (m', c') →
  covered EPB c'.
Proof.
  intros Hns [Hrange Hcov]. unfold DeallocatingVector.resize.
  case_decide as Hge.
  - intros H. apply bind_Ok in H as ([m1 c1] & Hrun & H). injection H as <- <-.
    apply resize_grow_result in Hrun as [_ Hcap].
    split; [done|]. simpl. unfold DeallocatingVector.capacity in Hcap.
    pose proof (wrap_le (Vector.size (DeallocatingVector.bucket_list c1) * EPB)
                  ltac:(unfold Vector.size; nia)).
    lia.
  - intros H. apply bind_Ok in H as ([m1 c1] & H1 & H). injection H as <- <-.
    apply bind_Ok in H1 as (m2 & _ & H1). injection H1 as <- <-.
    split; [done|]. simpl. unfold Vector.size. rewrite vector_resize_length.
    assert (0 <= new_size / EPB <= new_size) as Hq.
    { split; [apply Z.div_pos; lia|]. apply Z.div_le_upper_bound; nia. }
    rewrite wrap_small by lia.
    pose proof (Z.div_mod new_size EPB ltac:(lia)).
    pose proof (Z.mod_pos_bound new_size EPB ltac:(lia)). nia.
Qed.

Lemma clear_covered m c m' c' :
  DeallocatingVector.clear m c = Ok (m', c') → covered EPB c'.
Proof.
  unfold DeallocatingVector.clear. intros H.
  apply bind_Ok in H as (m1 & _ & H). injection H as <- <-.
  unfold covered, Vector.size, SIZE_MODULUS. simpl. lia.
Qed.

Lemma call_preserves (P : DeallocatingVector.t → Prop) k
    (f : memory ElementT → DeallocatingVector.t →
         outcome (memory ElementT * DeallocatingVector.t)) w w' :
  (∀ m c m' c', P c → f m c = Ok (m', c') → P c') →
  World.call k f w = Ok w' →
  Forall P (World.vectors w) → Forall P (World.vectors w').
Proof.
  intros Hf. unfold World.call.
  destruct (World.vectors w !! k) as [c|] eqn:Hc; [|done].
  intros H Hall. apply bind_Ok in H as ([m' c'] & Hrun & H). injection H as <-.
  simpl. apply Forall_insert; [done|].
  eapply Hf; [|exact Hrun]. by eapply Forall_lookup_1.
Qed.

Lemma exec_covered fuel o w w' :
  Program.size_t_args o →
  Program.exec EPB fuel o w = Ok w' →
  Forall (covered EPB) (World.vectors w) → Forall (covered EPB) (World.vectors w').
Proof.
  intros Hargs. destruct o as [|k v|k v|k n|k n|k|k j]; simpl.
  - intros [= <-] Hall. simpl. apply Forall_app. split; [done|].
    apply Forall_singleton. apply (construct_covered (World.mem w)).
  - apply call_preserves. intros m c m' c' Hc H. by eapply push_back_covered.
  - apply call_preserves. intros m c m' c' Hc H. by eapply push_back_covered.
  - apply call_preserves. intros m c m' c' Hc [= <- <-]. done.
  - apply call_preserves. intros m c m' c' Hc H. by eapply resize_covered.
  - apply call_preserves. intros m c m' c' Hc H. by eapply clear_covered.
  - destruct (World.vectors w !! k) as [c|] eqn:Hc; [|done].
    destruct (World.vectors w !! j) as [d|] eqn:Hd; [|done].
    intros [= <-] Hall. simpl.
    pose proof (Forall_lookup_1 _ _ _ _ Hall Hc) as Pc.
    pose proof (Forall_lookup_1 _ _ _ _ Hall Hd) as Pd.
    apply Forall_insert; [apply Forall_insert|]; try done.
Qed.

Lemma reachable_covered w :
  Program.reachable EPB w → Forall (covered EPB) (World.vectors w).
Proof.
  induction 1 as [|w o fuel w' _ IH Hargs Hexec].
  - constructor.
  - by eapply exec_covered.
Qed.

Lemma run_reachable fuel ops w w' :
  Program.reachable EPB w →
  Forall Program.size_t_args ops →
  run EPB fuel ops w = Ok w' →
  Program.reachable EPB w'.
Proof.
  revert w. induction ops as [|o ops IH]; intros w Hw Hargs; simpl.
  - by intros [= <-].
  - intros H. apply bind_Ok in H as (w1 & Hexec & Hrun).
    apply Forall_cons in Hargs as [Ho Hargs].
    eapply IH; [|done|exact Hrun]. by eapply Program.reachable_step.
Qed.
End Covered.

(** C4. In every state that construction and calls of [push_back],
    [emplace_back], [reserve], [resize], [clear] and [swap] can reach, each
    container whose block count times [ELEMENTS_PER_BLOCK] is a
    [std::size_t] value has a [capacity()] that is an exact multiple of
    [ELEMENTS_PER_BLOCK] and is at least [size()]. *)
Theorem capacity_invariant {ElementT : Type} `{!DefaultInit ElementT}
    (ELEMENTS_PER_BLOCK : Z)
    (w : World.t ElementT) (c : DeallocatingVector.t) :
  0 < ELEMENTS_PER_BLOCK < SIZE_MODULUS →
  Program.reachable ELEMENTS_PER_BLOCK w →
  c ∈ World.vectors w →
  Vector.size (DeallocatingVector.bucket_list c) * ELEMENTS_PER_BLOCK < SIZE_MODULUS →
  (ELEMENTS_PER_BLOCK | DeallocatingVector.capacity ELEMENTS_PER_BLOCK c) ∧
  DeallocatingVector.size c <= DeallocatingVector.capacity ELEMENTS_PER_BLOCK c.
Proof.
  intros HEPB Hreach Hc Hfit.
  pose proof (reachable_covered ELEMENTS_PER_BLOCK HEPB w Hreach) as Hall.
  rewrite Forall_forall in Hall. destruct (Hall c Hc) as [Hrange Hcov].
  unfold DeallocatingVector.capacity, DeallocatingVector.size.
  rewrite wrap_small by (unfold Vector.size in *; nia).
  split; [|done]. by exists (Vector.size (DeallocatingVector.bucket_list c)).
Qed.

(** ** [clear] *)

Section Clear.
Context {ElementT : Type} (EPB : Z).
Implicit Types (m : memory ElementT) (c : DeallocatingVector.t).

Lemma held_cons_Some (a : addr) (bl : list (option addr)) :
  held (Some a :: bl) = a :: held bl.
Proof. reflexivity. Qed.

Lemma held_cons_None (bl : list (option addr)) : held (None :: bl) = held bl.
Proof. reflexivity. Qed.

Lemma owns_tail m (p : option addr) (bl : list (option addr)) m' :
  owns EPB m (p :: bl) →
  delete_array p m = Ok m' →
  owns EPB m' bl ∧ released m' = released m ++ held [p] ∧
  (∀ a, a ∈ held [p] → live m' !! a = None) ∧
  (∀ a, a ∉ held [p] → live m' !! a = live m !! a).
Proof.
  intros [Hnd Hlive]. destruct p as [a|].
  - rewrite held_cons_Some in Hnd, Hlive. rewrite held_cons_Some.
    change (held []) with (@nil addr).
    apply NoDup_cons in Hnd as [Hnotin Hnd]. unfold delete_array.
    destruct (live m !! a) as [b|] eqn:Hb; [|done]. intros [= <-].
    cbn [live released].
    split; [split; [done|]|split; [done|split]].
    + intros x Hx. destruct (Hlive x) as (b' & Hb' & He); [by right|].
      exists b'. cbn [live]. rewrite lookup_delete_ne; [done|]. intros ->. done.
    + intros x Hx. apply list_elem_of_singleton in Hx as ->. apply lookup_delete_eq.
    + intros x Hx. apply lookup_delete_ne. intros ->. apply Hx. by left.
  - intros [= <-]. rewrite held_cons_None in Hnd, Hlive. rewrite held_cons_None.
    change (held []) with (@nil addr). rewrite app_nil_r.
    split; [done|]. split; [done|]. split; [|done].
    intros x Hx. by apply elem_of_nil in Hx.
Qed.

Lemma clear_buckets_spec (bl : list (option addr)) m :
  owns EPB m bl →
  ∃ m', DeallocatingVector.clear_buckets bl m = Ok m' ∧
        released m' = released m ++ held bl ∧
        (∀ a, a ∈ held bl → live m' !! a = None) ∧
        (∀ a, a ∉ held bl → live m' !! a = live m !! a).
Proof.
  revert m. induction bl as [|p bl IH]; intros m Hown.
  - exists m. simpl. rewrite app_nil_r. split; [done|]. split; [done|].
    split; [|done]. intros a Ha. by apply elem_of_nil in Ha.
  - assert (∃ m1, delete_array p m = Ok m1) as [m1 Hdel].
    { destruct p as [a|]; simpl; [|eauto].
      destruct Hown as [_ Hlive]. destruct (Hlive a) as (b & -> & _); [|eauto].
      rewrite held_cons_Some. by left. }
    destruct (owns_tail m p bl m1 Hown Hdel) as (Hown1 & Hrel1 & Hdead1 & Hkeep1).
    destruct (IH m1 Hown1) as (m' & Hrun & Hrel & Hdead & Hkeep).
    exists m'. split; [|split; [|split]].
    + simpl. destruct p as [a|].
      * rewrite decide_True by done. rewrite Hdel. exact Hrun.
      * rewrite decide_False by (intros H; by apply H).
        simpl in Hdel. injection Hdel as ->. exact Hrun.
    + rewrite Hrel, Hrel1, <- app_assoc.
      change (p :: bl) with ([p] ++ bl). by rewrite held_app.
    + change (p :: bl) with ([p] ++ bl). rewrite held_app. intros a Ha.
      destruct (decide (a ∈ held bl)) as [Hin|Hnin]; [by apply Hdead|].
      rewrite Hkeep by done. apply Hdead1. apply elem_of_app in Ha. tauto.
    + change (p :: bl) with ([p] ++ bl). rewrite held_app. intros a Ha.
      rewrite not_elem_of_app in Ha. destruct Ha as [Ha1 Ha2].
      rewrite Hkeep by done. by apply Hkeep1.
Qed.
End Clear.

(** [clear] where the container owns its blocks: every block is released,
    the block sequence is emptied and [size() == 0], [capacity() == 0]; a
    [push_back(v)] that follows allocates one new block and leaves
    [size() == 1] with [operator[](0)] referring to [v]. Ownership is
    needed: it fails in the states a shrinking [resize] leaves behind. *)
Lemma clear_then_push_back {ElementT : Type} `{!DefaultInit ElementT}
    (ELEMENTS_PER_BLOCK : Z) (m : memory ElementT) (c : DeallocatingVector.t)
    (v : ElementT) :
  0 < ELEMENTS_PER_BLOCK < SIZE_MODULUS →
  owns ELEMENTS_PER_BLOCK m (DeallocatingVector.bucket_list c) →
  ∃ m1 c1,
    DeallocatingVector.clear m c = Ok (m1, c1) ∧
    DeallocatingVector.size c1 = 0 ∧
    DeallocatingVector.capacity ELEMENTS_PER_BLOCK c1 = 0 ∧
    DeallocatingVector.bucket_list c1 = [] ∧
    released m1 = released m ++ held (DeallocatingVector.bucket_list c) ∧
    (∀ a, a ∈ held (DeallocatingVector.bucket_list c) → live m1 !! a = None) ∧
    ∃ m2 c2 a,
      DeallocatingVector.push_back ELEMENTS_PER_BLOCK m1 c1 v = Ok (m2, c2) ∧
      DeallocatingVector.bucket_list c2 = [Some a] ∧
      live m1 !! a = None ∧ (a ∉ released m1) ∧
      (∃ b, live m2 !! a = Some b ∧ extent b = ELEMENTS_PER_BLOCK) ∧
      DeallocatingVector.size c2 = 1 ∧
      DeallocatingVector.read ELEMENTS_PER_BLOCK m2 c2 0 = Ok v.
Proof.
  intros HEPB Hown.
  destruct (clear_buckets_spec ELEMENTS_PER_BLOCK _ m Hown)
    as (m1 & Hrun & Hrel & Hdead & _).
  exists m1, {| DeallocatingVector.current_size := 0;
                DeallocatingVector.bucket_list := [] |}.
  split; [unfold DeallocatingVector.clear; by rewrite Hrun|].
  split; [done|]. split; [done|]. split; [done|]. split; [done|]. split; [done|].
  destruct (new_array_fresh ELEMENTS_PER_BLOCK m1) as [Hfresh Hnotrel].
  pose proof (new_array_live ELEMENTS_PER_BLOCK m1) as Hnew.
  unfold DeallocatingVector.push_back, DeallocatingVector.capacity,
    DeallocatingVector.size, Vector.size.
  cbn [DeallocatingVector.current_size DeallocatingVector.bucket_list length].
  rewrite decide_True by done.
  destruct (new_array ELEMENTS_PER_BLOCK m1) as [a m1'] eqn:Hna.
  simpl in Hfresh, Hnotrel, Hnew.
  assert (live m1' !! a
          = Some {| extent := ELEMENTS_PER_BLOCK;
                    cells := default_cells ELEMENTS_PER_BLOCK |}) as Ha.
  { rewrite Hnew. by rewrite decide_True. }
  assert (Z.modulo 0 ELEMENTS_PER_BLOCK = 0) as H0 by (apply Z.mod_0_l; lia).
  assert (Memory.element m1' (Some a) 0 = Ok (a, 0)) as Helem.
  { unfold Memory.element. rewrite Ha. simpl. by rewrite decide_True by lia. }
  rewrite H0. unfold Vector.back. simpl last.
  cbn [mbind outcome_bind]. rewrite Helem. cbn [mbind outcome_bind].
  rewrite (store_Ok m1' (a, 0) v _ Ha). cbn [mbind outcome_bind].
  eexists _, _, a. split; [done|]. split; [done|]. split; [done|].
  split; [done|]. simpl. split.
  { rewrite lookup_insert_eq. eauto. }
  split; [done|].
  apply read_Ok. rewrite Z.div_0_l, H0 by lia.
  exists a, {| extent := ELEMENTS_PER_BLOCK;
               cells := <[0 := v]> (default_cells ELEMENTS_PER_BLOCK) |}.
  cbn [live extent cells DeallocatingVector.bucket_list fst snd].
  rewrite !lookup_insert_eq. repeat split; try done; lia.
Qed.

(** ** [back] *)


(** ** The draining iterator *)

Section Drain.
Context {ElementT : Type} (EPB : Z) (HEPB : 0 < EPB < SIZE_MODULUS).
Implicit Types (w : World.t ElementT) (c : DeallocatingVector.t).

Lemma traverse_unfold fuel w (it last : IteratorState.t) :
  DeallocatingVectorRemoveIterator.traverse EPB fuel w it last
  = if DeallocatingVectorRemoveIterator.equal it last then Ok (w, it)
    else match fuel with
         | O => OutOfFuel
         | S fuel' =>
             '(w', it') ← DeallocatingVectorRemoveIterator.increment EPB w it;
             DeallocatingVectorRemoveIterator.traverse EPB fuel' w' it' last
         end.
Proof. destruct fuel; reflexivity. Qed.

(** Marking slot [j] null in a bucket list drained up to [j]. *)
Lemma drained_slots (addrs : list addr) (j : nat) (a : addr) :
  addrs !! j = Some a →
  <[j := None]> (replicate j None ++ (Some <$> drop j addrs))
  = replicate (S j) None ++ (Some <$> drop (S j) addrs).
Proof.
  intros Ha. rewrite insert_app_r_alt by (rewrite length_replicate; lia).
  rewrite length_replicate, Nat.sub_diag.
  rewrite (drop_S _ _ _ Ha), fmap_cons.
  rewrite replicate_S_end, <- app_assoc. reflexivity.
Qed.

Lemma drained_slot (addrs : list addr) (j : nat) (a : addr) :
  addrs !! j = Some a →
  (replicate j None ++ (Some <$> drop j addrs)) !! j = Some (Some a).
Proof.
  intros Ha. rewrite lookup_app_r by (rewrite length_replicate; lia).
  rewrite length_replicate, Nat.sub_diag, (drop_S _ _ _ Ha). done.
Qed.

(** One increment below the end of the container. *)
Lemma increment_drained w0 (k : nat) n (addrs : list addr) w (i : Z) :
  (k < length (World.vectors w0))%nat →
  NoDup addrs →
  (∀ a, a ∈ addrs → is_Some (live (World.mem w0) !! a)) →
  0 <= i → i + 1 <= n → n < SIZE_MODULUS → n <= Z.of_nat (length addrs) * EPB →
  drained w0 k n addrs (Z.to_nat (i / EPB)) w →
  ∃ w',
    DeallocatingVectorRemoveIterator.increment EPB w (IteratorState.make i (Some k))
    = Ok (w', IteratorState.make (i + 1) (Some k)) ∧
    drained w0 k n addrs (Z.to_nat ((i + 1) / EPB)) w'.
Proof.
  intros Hk Hnd Hlive Hi Hin Hn Hcov (Hvec & Hrel & Hdead & Hkeep).
  unfold DeallocatingVectorRemoveIterator.increment.
  cbn [IteratorState.index IteratorState.bucket_list IteratorState.make].
  rewrite (wrap_small (i + 1)) by lia.
  assert (0 <= i / EPB) as Hq by (apply Z.div_pos; lia).
  pose proof (Z.div_mod i EPB ltac:(lia)) as Hdm.
  pose proof (Z.mod_pos_bound i EPB ltac:(lia)) as Hmb.
  pose proof (Z.div_mod (i + 1) EPB ltac:(lia)) as Hdm'.
  pose proof (Z.mod_pos_bound (i + 1) EPB ltac:(lia)) as Hmb'.
  case_decide as Hcross.
  - assert ((i + 1) / EPB = i / EPB + 1) as Hnext by nia.
    set (j := Z.to_nat (i / EPB)) in *.
    assert (j < length addrs)%nat as Hj by (unfold j; nia).
    destruct (lookup_lt_is_Some_2 addrs j Hj) as [a Ha].
    assert (a ∉ take j addrs) as Hnotin.
    { intros Hx. apply list_elem_of_lookup in Hx as [j' Hj'].
      pose proof (lookup_lt_Some _ _ _ Hj') as Hlt. rewrite length_take in Hlt.
      rewrite lookup_take_lt in Hj' by lia.
      pose proof (NoDup_lookup _ _ _ _ Hnd Ha Hj'). lia. }
    destruct (Hlive a) as [b Hb]; [by eapply list_elem_of_lookup_2|].
    unfold World.pointee, World.update. rewrite Hvec.
    rewrite list_lookup_insert_eq by done.
    cbn [mbind outcome_bind DeallocatingVector.bucket_list
         DeallocatingVector.current_size].
    unfold Vector.at_, Vector.assign_at, Vector.get.
    rewrite decide_True by lia. fold j. rewrite (drained_slot _ _ _ Ha).
    cbn [mbind outcome_bind]. rewrite decide_True by done.
    unfold delete_array. rewrite (Hkeep a Hnotin), Hb.
    cbn [mbind outcome_bind].
    eexists. split; [reflexivity|].
    replace (Z.to_nat ((i + 1) / EPB)) with (S j) by (unfold j; lia).
    split; [|split; [|split]]; cbn [World.vectors World.mem live released].
    + rewrite list_insert_insert_eq. by rewrite (drained_slots _ _ _ Ha).
    + rewrite Hrel, <- app_assoc. f_equal. by rewrite (take_S_r _ _ _ Ha).
    + intros x Hx. rewrite (take_S_r _ _ _ Ha) in Hx.
      apply elem_of_app in Hx as [Hx|Hx].
      * destruct (decide (x = a)) as [->|Hne]; [apply lookup_delete_eq|].
        rewrite lookup_delete_ne by done. by apply Hdead.
      * apply list_elem_of_singleton in Hx as ->. apply lookup_delete_eq.
    + intros x Hx. rewrite (take_S_r _ _ _ Ha), not_elem_of_app in Hx.
      destruct Hx as [Hx1 Hx2]. rewrite list_elem_of_singleton in Hx2.
      rewrite lookup_delete_ne by done. by apply Hkeep.
  - exists w. split; [done|].
    assert ((i + 1) / EPB = i / EPB) as -> by lia.
    done.
Qed.

(** The whole traversal, from any position up to the end. *)
Lemma traverse_drained w0 (k : nat) n (addrs : list addr) (fuel : nat) w (i : Z) :
  (k < length (World.vectors w0))%nat →
  NoDup addrs →
  (∀ a, a ∈ addrs → is_Some (live (World.mem w0) !! a)) →
  0 <= i <= n → n < SIZE_MODULUS → n <= Z.of_nat (length addrs) * EPB →
  n - i <= Z.of_nat fuel →
  drained w0 k n addrs (Z.to_nat (i / EPB)) w →
  ∃ w',
    DeallocatingVectorRemoveIterator.traverse EPB fuel w
      (IteratorState.make i (Some k)) (IteratorState.make n (Some k))
    = Ok (w', IteratorState.make n (Some k)) ∧
    drained w0 k n addrs (Z.to_nat (n / EPB)) w'.
Proof.
  intros Hk Hnd Hlive Hi Hn Hcov. revert w i Hi.
  induction fuel as [|fuel IH]; intros w i Hi Hfuel Hdr;
    rewrite traverse_unfold; unfold DeallocatingVectorRemoveIterator.equal;
    cbn [IteratorState.index IteratorState.make]; case_bool_decide as Heq.
  - subst i. by exists w.
  - lia.
  - subst i. by exists w.
  - destruct (increment_drained w0 k n addrs w i) as (w1 & Hinc & Hdr1);
      try done; try lia.
    destruct (IH w1 (i + 1)) as (w' & Htr & Hdr'); try done; try lia.
    exists w'. split; [|done]. rewrite Hinc. exact Htr.
Qed.
End Drain.

Example busy_world_vectors :
  World.vectors busy_world
  = [{| DeallocatingVector.current_size := 2;
        DeallocatingVector.bucket_list := [Some 3%positive; Some 4%positive] |};
     {| DeallocatingVector.current_size := 1;
        DeallocatingVector.bucket_list := [Some 7%positive] |}].
Proof. vm_compute. reflexivity. Qed.

(** C1, as the code has it. A drain of a container of [n > 0] elements with
    no released block, from [dbegin()] to [dend()], releases the blocks
    [0 .. n / ELEMENTS_PER_BLOCK - 1], the ones whose last slot the cursor
    has stepped over, each once and in increasing block order, and marks
    their slots null. The other blocks, among them the block of position
    [n], stay held and live. *)
Theorem drain_releases_passed_blocks {ElementT : Type} (ELEMENTS_PER_BLOCK : Z)
    (w : World.t ElementT) (k : nat) (c : DeallocatingVector.t) (fuel : nat) :
  let n := DeallocatingVector.size c in
  let blocks := held (DeallocatingVector.bucket_list c) in
  let passed := Z.to_nat (n / ELEMENTS_PER_BLOCK) in
  0 < ELEMENTS_PER_BLOCK < SIZE_MODULUS →
  World.vectors w !! k = Some c →
  intact (DeallocatingVector.bucket_list c) →
  owns ELEMENTS_PER_BLOCK (World.mem w) (DeallocatingVector.bucket_list c) →
  0 < n < SIZE_MODULUS →
  n <= Vector.size (DeallocatingVector.bucket_list c) * ELEMENTS_PER_BLOCK →
  n <= Z.of_nat fuel →
  ∃ w',
    Program.dend w k = Ok (IteratorState.make n (Some k)) ∧
    DeallocatingVectorRemoveIterator.traverse ELEMENTS_PER_BLOCK fuel w
      (Program.dbegin w k) (IteratorState.make n (Some k))
    = Ok (w', IteratorState.make n (Some k)) ∧
    released (World.mem w') = released (World.mem w) ++ take passed blocks ∧
    World.vectors w'
    = <[k := {| DeallocatingVector.current_size := n;
                DeallocatingVector.bucket_list :=
                  replicate passed None ++ (Some <$> drop passed blocks) |}]>
        (World.vectors w) ∧
    (∀ a, a ∈ take passed blocks → live (World.mem w') !! a = None) ∧
    (∀ a, a ∈ drop passed blocks →
          live (World.mem w') !! a = live (World.mem w) !! a ∧
          is_Some (live (World.mem w') !! a)).
Proof.
  intros n blocks passed HEPB Hc Hint Hown Hn Hcov Hfuel.
  destruct (proj1 (intact_owns ELEMENTS_PER_BLOCK _ _) (conj Hint Hown))
    as (addrs & Hbl & Hnd & Hlive).
  assert (blocks = addrs) as Hblocks by (unfold blocks; by rewrite Hbl, held_fmap_Some).
  rewrite Hblocks. clear Hblocks blocks.
  unfold Vector.size in Hcov. rewrite Hbl, length_fmap in Hcov.
  assert (∀ a, a ∈ addrs → is_Some (live (World.mem w) !! a)) as Hlive'.
  { intros a Ha. destruct (Hlive a Ha) as (b & Hb & _). eauto. }
  destruct (traverse_drained ELEMENTS_PER_BLOCK HEPB w k n addrs fuel w 0)
    as (w' & Htr & Hvec & Hrel & Hdead & Hkeep); try done; try lia.
  { by eapply lookup_lt_Some. }
  { rewrite Z.div_0_l by lia. change (Z.to_nat 0) with 0%nat.
    split; [|split; [|split]].
    - rewrite drop_0. cbn [replicate app]. rewrite <- Hbl.
      symmetry. apply list_insert_id. rewrite Hc. by destruct c.
    - by rewrite take_0, app_nil_r.
    - intros a Ha. rewrite take_0 in Ha. by apply elem_of_nil in Ha.
    - done. }
  exists w'. unfold Program.dend, Program.dbegin. rewrite Hc.
  split; [done|]. split; [exact Htr|]. split; [done|]. split; [done|].
  split; [done|]. intros a Ha.
  assert (a ∉ take passed addrs) as Hnotin.
  { rewrite <- (take_drop passed addrs) in Hnd.
    apply NoDup_app in Hnd as (_ & Hdisj & _). intros Hx. by apply (Hdisj a). }
  rewrite (Hkeep a Hnotin). split; [done|].
  apply Hlive'. rewrite <- (take_drop passed addrs). apply elem_of_app. by right.
Qed.

(** The sample container owns its blocks. *)
Lemma five_pushed_owns :
  owns 2 (World.mem five_pushed) (DeallocatingVector.bucket_list five_pushed_vector).
Proof.
  split.
  - apply (bool_decide_unpack _). by vm_compute.
  - apply Forall_forall. repeat constructor; eexists; (split; [by vm_compute|done]).
Qed.

Lemma drain_releases_passed_blocks_witness :
  ∃ w',
    Program.dend five_pushed 0 = Ok (IteratorState.make 5 (Some 0%nat)) ∧
    DeallocatingVectorRemoveIterator.traverse 2 5 five_pushed
      (Program.dbegin five_pushed 0) (IteratorState.make 5 (Some 0%nat))
    = Ok (w', IteratorState.make 5 (Some 0%nat)) ∧
    released (World.mem w')
    = released (World.mem five_pushed) ++ [1%positive; 2%positive] ∧
    World.vectors w'
    = <[0%nat := {| DeallocatingVector.current_size := 5;
                    DeallocatingVector.bucket_list :=
                      [None; None; Some 3%positive] |}]>
        (World.vectors five_pushed) ∧
    (∀ a, a ∈ [1%positive; 2%positive] → live (World.mem w') !! a = None) ∧
    (∀ a, a ∈ [3%positive] →
          live (World.mem w') !! a = live (World.mem five_pushed) !! a ∧
          is_Some (live (World.mem w') !! a)).
Proof.
  apply (drain_releases_passed_blocks 2 five_pushed 0 five_pushed_vector 5).
  - unfold SIZE_MODULUS. lia.
  - vm_compute. reflexivity.
  - vm_compute. reflexivity.
  - exact five_pushed_owns.
  - unfold SIZE_MODULUS. simpl. lia.
  - vm_compute. discriminate.
  - simpl. lia.
Defined.

(** A drain does not release every block. On a container with one element
    in blocks of four, where nothing was released before, the traversal is
    one increment that crosses no block boundary: the only block, which is
    the partially filled last one, is still held and live at the end. *)
Lemma drain_keeps_last_block :
  World.vectors one_pushed !! 0%nat
  = Some {| DeallocatingVector.current_size := 1;
            DeallocatingVector.bucket_list := [Some 1%positive] |} ∧
  released (World.mem one_pushed) = [] ∧
  is_Some (live (World.mem one_pushed) !! 1%positive) ∧
  DeallocatingVectorRemoveIterator.traverse 4 1 one_pushed
    (Program.dbegin one_pushed 0) (IteratorState.make 1 (Some 0%nat))
  = Ok (one_pushed, IteratorState.make 1 (Some 0%nat)) ∧
  ¬ drain_releases_every_block 4 1 one_pushed 0.
Proof.
  split; [by vm_compute|]. split; [by vm_compute|].
  split; [vm_compute; eauto|]. split; [by vm_compute|].
  intros (c & last & w' & it & Hc & Hend & Htr & Hrel).
  vm_compute in Hc. injection Hc as <-.
  vm_compute in Hend. injection Hend as <-.
  vm_compute in Htr. injection Htr as <- <-.
  vm_compute in Hrel. discriminate.
Qed.

(** ** [resize], shrinking *)

Section ResizeShrink.
Context {ElementT : Type} `{!DefaultInit ElementT} (EPB : Z) (HEPB : 0 < EPB < SIZE_MODULUS).
Implicit Types (m : memory ElementT) (c : DeallocatingVector.t).

(** [delete[]] of a null pointer does nothing, so the unguarded loop of
    [resize] frees what the guarded loop of [clear] frees. *)
Lemma resize_delete_clear_buckets (bl : list (option addr)) m :
  DeallocatingVector.resize_delete bl m = DeallocatingVector.clear_buckets bl m.
Proof.
  revert m. induction bl as [|p bl IH]; intros m; [done|]. simpl.
  destruct p as [a|].
  - rewrite decide_True by done. destruct (delete_array (Some a) m); simpl; auto.
  - rewrite decide_False by (intros H; by apply H). simpl. apply IH.
Qed.

(** The shrinking branch releases every held block, allocates nothing and
    keeps the first [1 + new_size / ELEMENTS_PER_BLOCK] pointers as they
    were: the non-null ones among them point to released blocks. *)
Lemma resize_shrink_spec fuel m c (new_size : Z) :
  owns EPB m (DeallocatingVector.bucket_list c) →
  covered EPB c →
  0 <= new_size < DeallocatingVector.current_size c →
  ∃ m',
    DeallocatingVector.resize EPB fuel m c new_size
    = Ok (m', {| DeallocatingVector.current_size := new_size;
                 DeallocatingVector.bucket_list :=
                   take (Z.to_nat (1 + new_size / EPB))
                     (DeallocatingVector.bucket_list c) |}) ∧
    released m' = released m ++ held (DeallocatingVector.bucket_list c) ∧
    (∀ a, a ∈ held (DeallocatingVector.bucket_list c) → live m' !! a = None) ∧
    (∀ a, a ∉ held (DeallocatingVector.bucket_list c) → live m' !! a = live m !! a).
Proof.
  intros Hown [Hrange Hcov] Hns.
  destruct (clear_buckets_spec EPB _ m Hown) as (m' & Hrun & Hrel & Hdead & Hkeep).
  exists m'. split; [|done].
  unfold DeallocatingVector.resize. rewrite decide_False by lia.
  rewrite resize_delete_clear_buckets, Hrun.
  cbn [mbind outcome_bind DeallocatingVector.bucket_list].
  assert (0 <= new_size / EPB < Vector.size (DeallocatingVector.bucket_list c)) as Hq.
  { split; [apply Z.div_pos; lia|]. apply Z.div_lt_upper_bound; lia. }
  assert (new_size / EPB <= new_size) by (apply Z.div_le_upper_bound; nia).
  rewrite wrap_small by lia. unfold Vector.resize, Vector.size in *.
  replace (Z.to_nat (1 + new_size / EPB) - length (DeallocatingVector.bucket_list c))%nat
    with 0%nat by lia.
  by rewrite app_nil_r.
Qed.
End ResizeShrink.

(** C2 at a failing input. A container with blocks of four elements holds
    one element; [resize(0)] releases its only block, allocates none, and
    leaves the pointer to the released block in the bucket list. A
    [push_back] or a [clear] that follows is undefined behaviour. *)
Theorem resize_shrink_leaves_released_block :
  let m := World.mem one_pushed in
  let c := {| DeallocatingVector.current_size := 1;
              DeallocatingVector.bucket_list := [Some 1%positive] |} in
  World.vectors one_pushed !! 0%nat = Some c ∧
  ∃ m' c',
    DeallocatingVector.resize 4 0 m c 0 = Ok (m', c') ∧
    DeallocatingVector.size c' = 0 ∧
    DeallocatingVector.bucket_list c' = [Some 1%positive] ∧
    released m' = [1%positive] ∧
    live m' = ∅ ∧
    DeallocatingVector.subscript 4 m' c' 0 = Undefined ∧
    DeallocatingVector.push_back 4 m' c' 9 = Undefined ∧
    DeallocatingVector.clear m' c' = Undefined ∧
    DeallocatingVector.destructor m' c' = Undefined.
Proof.
  split; [by vm_compute|].
  eexists _, _. split; [by vm_compute|].
  repeat split; by vm_compute.
Qed.

(** C8 at a failing input. A container state is reached through the
    public interface alone: construction with blocks of four elements,
    [push_back(7)], [resize(0)]. Its size is [0], its bucket list still
    holds the pointer to the block that [resize] released, and no block is
    live: the container does not own what it points to. [clear()] passes
    that pointer to [delete[]] a second time, which is undefined behaviour:
    it does not return a container with [size() == 0] and
    [capacity() == 0], and no [push_back] follows. *)
Theorem clear_after_shrink_releases_again :
  run 4 0 shrink_program World.empty = Ok shrunk ∧
  Program.reachable 4 shrunk ∧
  World.vectors shrunk = [shrunk_vector] ∧
  DeallocatingVector.size shrunk_vector = 0 ∧
  DeallocatingVector.capacity 4 shrunk_vector = 4 ∧
  DeallocatingVector.bucket_list shrunk_vector = [Some 1%positive] ∧
  live (World.mem shrunk) = ∅ ∧
  released (World.mem shrunk) = [1%positive] ∧
  ¬ owns 4 (World.mem shrunk) (DeallocatingVector.bucket_list shrunk_vector) ∧
  DeallocatingVector.clear (World.mem shrunk) shrunk_vector = Undefined ∧
  Program.exec 4 0 (Program.Clear 0) shrunk = Undefined ∧
  run 4 0 (shrink_program ++ [Program.Clear 0; Program.PushBack 0 9]) World.empty
  = Undefined.
Proof.
  assert (run 4 0 shrink_program World.empty = Ok shrunk) as Hrun by by vm_compute.
  split; [done|]. split.
  { apply (run_reachable 4 0 shrink_program World.empty).
    - constructor.
    - repeat constructor; unfold SIZE_MODULUS; simpl; lia.
    - done. }
  split; [by vm_compute|]. split; [done|]. split; [by vm_compute|].
  split; [done|]. split; [by vm_compute|]. split; [by vm_compute|].
  split.
  { intros [_ Hlive]. destruct (Hlive 1%positive) as (b & Hb & _).
    - vm_compute. left.
    - vm_compute in Hb. discriminate. }
  repeat split; by vm_compute.
Qed.

(** ** The theorems at sample states *)

Lemma capacity_invariant_witness :
  (2 | DeallocatingVector.capacity 2
         {| DeallocatingVector.current_size := 2;
            DeallocatingVector.bucket_list := [Some 3%positive; Some 4%positive] |}) ∧
  DeallocatingVector.size
    {| DeallocatingVector.current_size := 2;
       DeallocatingVector.bucket_list := [Some 3%positive; Some 4%positive] |}
  <= DeallocatingVector.capacity 2
       {| DeallocatingVector.current_size := 2;
          DeallocatingVector.bucket_list := [Some 3%positive; Some 4%positive] |}.
Proof.
  apply (capacity_invariant 2 busy_world).
  - unfold SIZE_MODULUS. lia.
  - apply (run_reachable 2 8 busy_program World.empty).
    + constructor.
    + repeat constructor; unfold SIZE_MODULUS; simpl; lia.
    + by vm_compute.
  - apply list_elem_of_lookup. exists 0%nat. by vm_compute.
  - by vm_compute.
Defined.

Lemma resize_grow_preserves_witness :
  ∃ m' c',
    DeallocatingVector.resize 2 5 (World.mem five_pushed) five_pushed_vector 9
    = Ok (m', c') ∧
    DeallocatingVector.size c' = 9 ∧
    9 <= DeallocatingVector.capacity 2 c' ∧
    ∀ i, 0 <= i < DeallocatingVector.size five_pushed_vector →
      (∀ r, DeallocatingVector.subscript 2 (World.mem five_pushed) five_pushed_vector i
            = Ok r →
            DeallocatingVector.subscript 2 m' c' i = Ok r) ∧
      (∀ v, DeallocatingVector.read 2 (World.mem five_pushed) five_pushed_vector i
            = Ok v →
            DeallocatingVector.read 2 m' c' i = Ok v).
Proof.
  apply (resize_grow_preserves 2 (World.mem five_pushed) five_pushed_vector 9 5).
  - unfold SIZE_MODULUS. lia.
  - simpl. lia.
  - unfold SIZE_MODULUS. lia.
  - lia.
Defined.

Lemma clear_then_push_back_witness :
  ∃ m1 c1,
    DeallocatingVector.clear (World.mem five_pushed) five_pushed_vector = Ok (m1, c1) ∧
    DeallocatingVector.size c1 = 0 ∧
    DeallocatingVector.capacity 2 c1 = 0 ∧
    DeallocatingVector.bucket_list c1 = [] ∧
    released m1
    = released (World.mem five_pushed)
      ++ held (DeallocatingVector.bucket_list five_pushed_vector) ∧
    (∀ a, a ∈ held (DeallocatingVector.bucket_list five_pushed_vector) →
          live m1 !! a = None) ∧
    ∃ m2 c2 a,
      DeallocatingVector.push_back 2 m1 c1 99 = Ok (m2, c2) ∧
      DeallocatingVector.bucket_list c2 = [Some a] ∧
      live m1 !! a = None ∧ (a ∉ released m1) ∧
      (∃ b, live m2 !! a = Some b ∧ extent b = 2) ∧
      DeallocatingVector.size c2 = 1 ∧
      DeallocatingVector.read 2 m2 c2 0 = Ok 99.
Proof.
  apply (clear_then_push_back 2 (World.mem five_pushed) five_pushed_vector 99).
  - unfold SIZE_MODULUS. lia.
  - exact five_pushed_owns.
Defined.



Example back_five_pushed :
  DeallocatingVector.back 2 (World.mem five_pushed) five_pushed_vector
  = Ok (3%positive, 1) ∧
  DeallocatingVector.subscript 2 (World.mem five_pushed) five_pushed_vector 4
  = Ok (3%positive, 0) ∧
  (r ← DeallocatingVector.back 2 (World.mem five_pushed) five_pushed_vector;
   load (World.mem five_pushed) r) = Undefined.
Proof. repeat split; by vm_compute. Qed.

Lemma dereference_checked_subscript_unchecked_witness :
  DeallocatingVectorIterator.dereference 4 one_pushed (IteratorState.make 4 (Some 0%nat))
  = Throw ∧
  DeallocatingVectorRemoveIterator.dereference 4 one_pushed
    (IteratorState.make 4 (Some 0%nat)) = Throw ∧
  DeallocatingVector.subscript 4 (World.mem one_pushed)
    {| DeallocatingVector.current_size := 1;
       DeallocatingVector.bucket_list := [Some 1%positive] |}
    (IteratorState.index (IteratorState.make 4 (Some 0%nat))) = Undefined ∧
  ∀ i, DeallocatingVector.subscript 4 (World.mem one_pushed)
         {| DeallocatingVector.current_size := 1;
            DeallocatingVector.bucket_list := [Some 1%positive] |} i ≠ Throw.
Proof.
  apply (dereference_checked_subscript_unchecked 4 one_pushed 0
           {| DeallocatingVector.current_size := 1;
              DeallocatingVector.bucket_list := [Some 1%positive] |}
           (IteratorState.make 4 (Some 0%nat))).
  - reflexivity.
  - by vm_compute.
  - by vm_compute.
Defined.

(** * Further properties of the code *)

Import Client.

(** ** Laws of the random-access iterator *)

Lemma to_ptrdiff_wrap z : 0 <= z < SIZE_MODULUS → wrap (to_ptrdiff z) = z.
Proof.
  intros Hz. unfold to_ptrdiff. case_decide.
  - by apply wrap_small.
  - rewrite wrap_negative by (unfold SIZE_MODULUS in *; lia). lia.
Qed.

Lemma to_ptrdiff_zero z : 0 <= z < SIZE_MODULUS → to_ptrdiff z = 0 ↔ z = 0.
Proof.
  intros Hz. unfold to_ptrdiff. case_decide; unfold SIZE_MODULUS in *; lia.
Qed.

Lemma wrap_difference_zero a b :
  0 <= a < SIZE_MODULUS → 0 <= b < SIZE_MODULUS → wrap (b - a) = 0 ↔ a = b.
Proof.
  intros Ha Hb. destruct (Z_lt_ge_dec (b - a) 0).
  - rewrite wrap_negative by lia. lia.
  - rewrite wrap_small by lia. lia.
Qed.

Lemma wrap_add_difference a b :
  0 <= b < SIZE_MODULUS → wrap (a + wrap (b - a)) = b.
Proof.
  intros Hb. unfold wrap.
  rewrite Z.add_mod_idemp_r by (unfold SIZE_MODULUS; lia).
  replace (a + (b - a)) with b by lia. by apply Z.mod_small.
Qed.

(** X1. Two iterators compare equal exactly when their distance is zero,
    for both iterator kinds. *)
Theorem equal_iff_distance_zero (it other : IteratorState.t) :
  0 <= IteratorState.index it < SIZE_MODULUS →
  0 <= IteratorState.index other < SIZE_MODULUS →
  (DeallocatingVectorIterator.equal it other = true ↔
   DeallocatingVectorIterator.distance_to it other = 0) ∧
  (DeallocatingVectorRemoveIterator.equal it other = true ↔
   DeallocatingVectorRemoveIterator.distance_to it other = 0).
Proof.
  intros Ha Hb.
  unfold DeallocatingVectorIterator.equal, DeallocatingVectorIterator.distance_to,
    DeallocatingVectorRemoveIterator.equal,
    DeallocatingVectorRemoveIterator.distance_to.
  rewrite bool_decide_eq_true, to_ptrdiff_zero by apply wrap_range.
  rewrite wrap_difference_zero by done. done.
Qed.

Lemma equal_iff_distance_zero_witness :
  (DeallocatingVectorIterator.equal
     (IteratorState.make 3 (Some 0%nat)) (IteratorState.make 7 (Some 0%nat)) = true ↔
   DeallocatingVectorIterator.distance_to
     (IteratorState.make 3 (Some 0%nat)) (IteratorState.make 7 (Some 0%nat)) = 0) ∧
  (DeallocatingVectorRemoveIterator.equal
     (IteratorState.make 3 (Some 0%nat)) (IteratorState.make 7 (Some 0%nat)) = true ↔
   DeallocatingVectorRemoveIterator.distance_to
     (IteratorState.make 3 (Some 0%nat)) (IteratorState.make 7 (Some 0%nat)) = 0).
Proof.
  apply (equal_iff_distance_zero
           (IteratorState.make 3 (Some 0%nat)) (IteratorState.make 7 (Some 0%nat)));
    unfold SIZE_MODULUS; simpl; lia.
Defined.

(** X2. Advancing an iterator by its distance to another one reaches the
    position of the other, whatever the two positions are: the
    wrap-around of the subtraction and of the addition cancel. *)
Theorem advance_by_distance_reaches (it other : IteratorState.t) :
  0 <= IteratorState.index it < SIZE_MODULUS →
  0 <= IteratorState.index other < SIZE_MODULUS →
  DeallocatingVectorIterator.advance
    (wrap (DeallocatingVectorIterator.distance_to it other)) it
  = IteratorState.make (IteratorState.index other) (IteratorState.bucket_list it).
Proof.
  intros Ha Hb.
  unfold DeallocatingVectorIterator.advance, DeallocatingVectorIterator.distance_to,
    IteratorState.make.
  rewrite to_ptrdiff_wrap by apply wrap_range.
  by rewrite wrap_add_difference.
Qed.

Lemma advance_by_distance_reaches_witness :
  DeallocatingVectorIterator.advance
    (wrap (DeallocatingVectorIterator.distance_to
             (IteratorState.make 9 (Some 0%nat)) (IteratorState.make 2 (Some 0%nat))))
    (IteratorState.make 9 (Some 0%nat))
  = IteratorState.make 2 (Some 0%nat).
Proof.
  apply (advance_by_distance_reaches
           (IteratorState.make 9 (Some 0%nat)) (IteratorState.make 2 (Some 0%nat)));
    unfold SIZE_MODULUS; simpl; lia.
Defined.

(** X3. [decrement] undoes [increment] and [increment] undoes [decrement],
    also at the positions [0] and [2^64 - 1] where the index wraps. *)
Theorem decrement_undoes_increment (it : IteratorState.t) :
  0 <= IteratorState.index it < SIZE_MODULUS →
  DeallocatingVectorIterator.decrement (DeallocatingVectorIterator.increment it) = it ∧
  DeallocatingVectorIterator.increment (DeallocatingVectorIterator.decrement it) = it.
Proof.
  intros Ha. destruct it as [a p]. simpl in Ha.
  unfold DeallocatingVectorIterator.decrement, DeallocatingVectorIterator.increment,
    DeallocatingVectorIterator.advance. simpl.
  assert (wrap (-1) = SIZE_MODULUS - 1) as -> by (by vm_compute).
  split; f_equal.
  - destruct (decide (a + 1 = SIZE_MODULUS)) as [Heq|Hne].
    + rewrite Heq. replace (wrap SIZE_MODULUS) with 0 by (by vm_compute).
      rewrite wrap_small by lia. lia.
    + rewrite (wrap_small (a + 1)) by lia. rewrite wrap_once by lia. lia.
  - destruct (decide (a = 0)) as [->|Hne].
    + rewrite (wrap_small (0 + _)) by (unfold SIZE_MODULUS; lia).
      by vm_compute.
    + rewrite (wrap_once (a + _)) by lia. rewrite wrap_small by lia. lia.
Qed.

Lemma decrement_undoes_increment_witness :
  DeallocatingVectorIterator.decrement
    (DeallocatingVectorIterator.increment (IteratorState.make 0 (Some 0%nat)))
  = IteratorState.make 0 (Some 0%nat) ∧
  DeallocatingVectorIterator.increment
    (DeallocatingVectorIterator.decrement (IteratorState.make 0 (Some 0%nat)))
  = IteratorState.make 0 (Some 0%nat).
Proof.
  apply (decrement_undoes_increment (IteratorState.make 0 (Some 0%nat))).
  unfold SIZE_MODULUS. simpl. lia.
Defined.

(** ** Iterators and [operator[]] *)

Section IteratorAccess.
Context {ElementT : Type} (EPB : Z).
Implicit Types (w : World.t ElementT) (c : DeallocatingVector.t).

(** Inside the block table the checked and the unchecked lookup agree. *)
Lemma at_subscript {A : Type} (l : list A) (i : Z) :
  0 <= i < Vector.size l → Vector.at_ l i = Vector.subscript l i.
Proof.
  intros Hi. unfold Vector.at_, Vector.subscript, Vector.get, Vector.size in *.
  rewrite decide_True by lia.
  destruct (lookup_lt_is_Some_2 l (Z.to_nat i)) as [x ->]; [lia|done].
Qed.

Lemma dereference_in_range w (k : nat) c (it : IteratorState.t) :
  IteratorState.bucket_list it = Some k →
  World.vectors w !! k = Some c →
  0 <= IteratorState.index it / EPB < Vector.size (DeallocatingVector.bucket_list c) →
  DeallocatingVectorIterator.dereference EPB w it
  = DeallocatingVector.subscript EPB (World.mem w) c (IteratorState.index it).
Proof.
  intros Hp Hc Hi.
  unfold DeallocatingVectorIterator.dereference, DeallocatingVector.subscript,
    World.pointee.
  rewrite Hp, Hc. cbn [mbind outcome_bind]. by rewrite at_subscript.
Qed.

Lemma visit_unfold fuel w (it last : IteratorState.t) :
  visit EPB fuel w it last
  = if DeallocatingVectorIterator.equal it last then Ok []
    else match fuel with
         | O => OutOfFuel
         | S fuel' =>
             r ← DeallocatingVectorIterator.dereference EPB w it;
             v ← load (World.mem w) r;
             vs ← visit EPB fuel' w (DeallocatingVectorIterator.increment it) last;
             Ok (v :: vs)
         end.
Proof. destruct fuel; reflexivity. Qed.

(** The read loop from position [i] yields what [operator[]] reads at
    [i], [i + 1], ... up to the end. *)
Lemma visit_from w (k : nat) c (vs : list ElementT) (fuel : nat) (i : nat) :
  World.vectors w !! k = Some c →
  Z.of_nat (length vs) < SIZE_MODULUS →
  (∀ j v, vs !! j = Some v →
          DeallocatingVector.read EPB (World.mem w) c (Z.of_nat j) = Ok v) →
  (i <= length vs)%nat →
  (length vs - i <= fuel)%nat →
  visit EPB fuel w (IteratorState.make (Z.of_nat i) (Some k))
    (IteratorState.make (Z.of_nat (length vs)) (Some k))
  = Ok (drop i vs).
Proof.
  intros Hc Hlen Hreads. revert i.
  induction fuel as [|fuel IH]; intros i Hi Hfuel; rewrite visit_unfold;
    unfold DeallocatingVectorIterator.equal;
    cbn [IteratorState.index IteratorState.make]; case_bool_decide as Heq.
  - assert (i = length vs) as -> by lia. by rewrite drop_all.
  - lia.
  - assert (i = length vs) as -> by lia. by rewrite drop_all.
  - assert (i < length vs)%nat as Hlt by lia.
    destruct (lookup_lt_is_Some_2 vs i Hlt) as [v Hv].
    pose proof (Hreads i v Hv) as Hread.
    apply read_Ok in Hread as (a & b & H0 & Hl & Hb & Ho & Hcell).
    assert (DeallocatingVectorIterator.dereference EPB w
              (IteratorState.make (Z.of_nat i) (Some k))
            = Ok (a, Z.of_nat i mod EPB)) as ->.
    { rewrite (dereference_in_range w k c); [|done|done|].
      - apply subscript_Ok. by exists a, b.
      - cbn [IteratorState.index IteratorState.make]. split; [done|].
        pose proof (lookup_lt_Some _ _ _ Hl). unfold Vector.size. lia. }
    cbn [mbind outcome_bind].
    rewrite (proj2 (load_Ok (World.mem w) (a, Z.of_nat i mod EPB) v))
      by (by exists b).
    cbn [mbind outcome_bind].
    unfold DeallocatingVectorIterator.increment, DeallocatingVectorIterator.advance.
    unfold IteratorState.make in *.
    cbn [IteratorState.index IteratorState.bucket_list].
    rewrite wrap_small by lia.
    replace (Z.of_nat i + 1) with (Z.of_nat (S i)) by lia.
    rewrite IH by lia.
    cbn [mbind outcome_bind]. by rewrite (drop_S _ _ _ Hv).
Qed.
End IteratorAccess.

(** X4. While the block index of an iterator is inside the block table of
    its container, [dereference] of both iterator kinds returns what
    [operator[]] returns at the index of the iterator: the same reference,
    or the same undefined behaviour on a null or dangling block. *)
Theorem dereference_agrees_with_subscript {ElementT : Type} (ELEMENTS_PER_BLOCK : Z)
    (w : World.t ElementT) (k : nat) (c : DeallocatingVector.t)
    (it : IteratorState.t) :
  IteratorState.bucket_list it = Some k →
  World.vectors w !! k = Some c →
  0 <= IteratorState.index it / ELEMENTS_PER_BLOCK
    < Vector.size (DeallocatingVector.bucket_list c) →
  DeallocatingVectorIterator.dereference ELEMENTS_PER_BLOCK w it
  = DeallocatingVector.subscript ELEMENTS_PER_BLOCK (World.mem w) c
      (IteratorState.index it) ∧
  DeallocatingVectorRemoveIterator.dereference ELEMENTS_PER_BLOCK w it
  = DeallocatingVector.subscript ELEMENTS_PER_BLOCK (World.mem w) c
      (IteratorState.index it).
Proof.
  intros Hp Hc Hi. split.
  - by apply (dereference_in_range ELEMENTS_PER_BLOCK w k c it).
  - pose proof (dereference_in_range ELEMENTS_PER_BLOCK w k c it Hp Hc Hi) as H.
    exact H.
Qed.

Lemma dereference_agrees_with_subscript_witness :
  DeallocatingVectorIterator.dereference 2 five_pushed
    (IteratorState.make 3 (Some 0%nat))
  = DeallocatingVector.subscript 2 (World.mem five_pushed) five_pushed_vector
      (IteratorState.index (IteratorState.make 3 (Some 0%nat))) ∧
  DeallocatingVectorRemoveIterator.dereference 2 five_pushed
    (IteratorState.make 3 (Some 0%nat))
  = DeallocatingVector.subscript 2 (World.mem five_pushed) five_pushed_vector
      (IteratorState.index (IteratorState.make 3 (Some 0%nat))).
Proof.
  apply (dereference_agrees_with_subscript 2 five_pushed 0 five_pushed_vector
           (IteratorState.make 3 (Some 0%nat))).
  - reflexivity.
  - by vm_compute.
  - by vm_compute.
Defined.

(** X5. A read loop from [begin()] to [end()] over a container of [N]
    elements ends after [N] steps and yields, in index order, exactly the
    values that [operator[]] reads at [0 .. N - 1]. *)
Theorem iteration_visits_elements {ElementT : Type} (ELEMENTS_PER_BLOCK : Z)
    (w : World.t ElementT) (k : nat) (c : DeallocatingVector.t)
    (vs : list ElementT) (fuel : nat) :
  World.vectors w !! k = Some c →
  DeallocatingVector.size c = Z.of_nat (length vs) →
  Z.of_nat (length vs) < SIZE_MODULUS →
  (∀ j v, vs !! j = Some v →
          DeallocatingVector.read ELEMENTS_PER_BLOCK (World.mem w) c (Z.of_nat j)
          = Ok v) →
  (length vs <= fuel)%nat →
  ∃ last, Program.end_ w k = Ok last ∧
          visit ELEMENTS_PER_BLOCK fuel w (Program.begin_ w k) last = Ok vs.
Proof.
  intros Hc Hsz Hlen Hreads Hfuel.
  exists (IteratorState.make (Z.of_nat (length vs)) (Some k)). split.
  - unfold Program.end_. rewrite Hc. by rewrite Hsz.
  - unfold Program.begin_.
    exact (visit_from ELEMENTS_PER_BLOCK w k c vs fuel 0 Hc Hlen Hreads
             ltac:(lia) ltac:(lia)).
Qed.

Lemma five_pushed_reads (j : nat) (v : Z) :
  [10; 20; 30; 40; 50] !! j = Some v →
  DeallocatingVector.read 2 (World.mem five_pushed) five_pushed_vector (Z.of_nat j)
  = Ok v.
Proof.
  do 5 (destruct j as [|j]; [intros [= <-]; by vm_compute|]). done.
Qed.

Lemma iteration_visits_elements_witness :
  ∃ last, Program.end_ five_pushed 0 = Ok last ∧
          visit 2 5 five_pushed (Program.begin_ five_pushed 0) last
          = Ok [10; 20; 30; 40; 50].
Proof.
  apply (iteration_visits_elements 2 five_pushed 0 five_pushed_vector
           [10; 20; 30; 40; 50] 5).
  - by vm_compute.
  - reflexivity.
  - unfold SIZE_MODULUS. simpl. lia.
  - exact five_pushed_reads.
  - simpl. lia.
Defined.

(** ** What [push_back] changes *)

Section PushBackEffect.
Context {ElementT : Type} `{!DefaultInit ElementT} (EPB : Z).
Implicit Types (m : memory ElementT) (c : DeallocatingVector.t).

(** Every successful [push_back] is: at most one allocation at the end of
    the bucket list, then one assignment into the last block. *)
Lemma push_back_Ok m c (v : ElementT) m' c' :
  DeallocatingVector.push_back EPB m c v = Ok (m', c') →
  ∃ m1 bl1 a0 b0,
    ((m1 = m ∧ bl1 = DeallocatingVector.bucket_list c ∧
      DeallocatingVector.current_size c ≠ DeallocatingVector.capacity EPB c) ∨
     (new_array EPB m = (a0, m1) ∧
      bl1 = DeallocatingVector.bucket_list c ++ [Some a0] ∧
      DeallocatingVector.current_size c = DeallocatingVector.capacity EPB c)) ∧
    last bl1 = Some (Some a0) ∧
    live m1 !! a0 = Some b0 ∧
    0 <= DeallocatingVector.current_size c mod EPB < extent b0 ∧
    m' = {| live := <[a0 := {| extent := extent b0;
                               cells := <[DeallocatingVector.current_size c mod EPB := v]>
                                          (cells b0) |}]> (live m1);
            released := released m1 |} ∧
    c' = {| DeallocatingVector.current_size :=
              wrap (DeallocatingVector.current_size c + 1);
            DeallocatingVector.bucket_list := bl1 |}.
Proof.
  unfold DeallocatingVector.push_back, DeallocatingVector.size.
  case_decide as Hfull.
  - destruct (new_array EPB m) as [a m1] eqn:Hna.
    intros H. apply bind_Ok in H as (p & Hp & H). apply bind_Ok in H as (r & Hr & H).
    apply bind_Ok in H as (m2 & Hs & H). injection H as <- <-.
    apply element_Ok in Hr as (a0 & b0 & -> & -> & Hb0 & Ho).
    unfold Vector.back in Hp. rewrite last_snoc in Hp. injection Hp as ->.
    rewrite (store_Ok _ _ _ b0) in Hs by done. injection Hs as <-.
    exists m1, (DeallocatingVector.bucket_list c ++ [Some a0]), a0, b0.
    split; [right; done|]. by rewrite last_snoc.
  - intros H. apply bind_Ok in H as (p & Hp & H). apply bind_Ok in H as (r & Hr & H).
    apply bind_Ok in H as (m2 & Hs & H). injection H as <- <-.
    apply element_Ok in Hr as (a0 & b0 & -> & -> & Hb0 & Ho).
    unfold Vector.back in Hp.
    destruct (last (DeallocatingVector.bucket_list c)) as [p|] eqn:Hlast; [|done].
    injection Hp as ->.
    rewrite (store_Ok _ _ _ b0) in Hs by done. injection Hs as <-.
    exists m, (DeallocatingVector.bucket_list c), a0, b0.
    split; [left; done|]. done.
Qed.

Lemma push_back_frame m c (v : ElementT) m' c' :
  DeallocatingVector.push_back EPB m c v = Ok (m', c') →
  released m' = released m ∧
  (∃ extra, DeallocatingVector.bucket_list c'
            = DeallocatingVector.bucket_list c ++ extra) ∧
  ∀ a b, live m !! a = Some b →
         ∃ b', live m' !! a = Some b' ∧ extent b' = extent b.
Proof.
  intros H. apply push_back_Ok in H
    as (m1 & bl1 & a0 & b0 & Hcase & Hlast & Hb0 & Ho & -> & ->).
  cbn [live released DeallocatingVector.bucket_list].
  assert (released m1 = released m ∧
          (∃ extra, bl1 = DeallocatingVector.bucket_list c ++ extra) ∧
          ∀ a b, live m !! a = Some b → live m1 !! a = Some b) as (Hrel & Hext & Hkeep).
  { destruct Hcase as [(-> & -> & _)|(Hna & -> & _)].
    - split; [done|]. split; [|done]. exists []. by rewrite app_nil_r.
    - replace m1 with (new_array EPB m).2 by (by rewrite Hna).
      split; [done|]. split; [by eexists|]. intros a b. apply new_array_keeps. }
  split; [done|]. split; [done|]. intros a b Hb. apply Hkeep in Hb.
  destruct (decide (a0 = a)) as [->|Hne].
  - rewrite lookup_insert_eq. eexists. split; [done|]. simpl.
    pose proof (eq_trans (eq_sym Hb0) Hb) as Heq. by injection Heq as ->.
  - rewrite lookup_insert_ne by done. eauto.
Qed.
End PushBackEffect.

(** X6. [push_back] and [emplace_back] never move an element: a reference
    that [operator[]] returned before the call is returned again after it,
    still valid, also when the call allocates a block. No block is released
    by the call. *)
Theorem push_back_keeps_references {ElementT : Type} `{!DefaultInit ElementT}
    (ELEMENTS_PER_BLOCK : Z)
    (m : memory ElementT) (c : DeallocatingVector.t) (v : ElementT)
    (m' : memory ElementT) (c' : DeallocatingVector.t) :
  DeallocatingVector.push_back ELEMENTS_PER_BLOCK m c v = Ok (m', c') ∨
  DeallocatingVector.emplace_back ELEMENTS_PER_BLOCK m c v = Ok (m', c') →
  released m' = released m ∧
  ∀ i r, DeallocatingVector.subscript ELEMENTS_PER_BLOCK m c i = Ok r →
         DeallocatingVector.subscript ELEMENTS_PER_BLOCK m' c' i = Ok r.
Proof.
  intros H.
  assert (DeallocatingVector.push_back ELEMENTS_PER_BLOCK m c v = Ok (m', c')) as Hpush
    by (by destruct H).
  destruct (push_back_frame ELEMENTS_PER_BLOCK m c v m' c' Hpush)
    as (Hrel & [extra Hext] & Hkeep).
  split; [done|]. intros i r. rewrite !subscript_Ok.
  intros (a & b & H0 & Hl & Hb & Ho & ->).
  destruct (Hkeep a b Hb) as (b' & Hb' & He).
  exists a, b'. rewrite Hext, He. repeat split; try done; try lia.
  by apply lookup_app_l_Some.
Qed.

Lemma push_back_keeps_references_witness :
  released six_pushed.1 = released (World.mem five_pushed) ∧
  ∀ i r, DeallocatingVector.subscript 2 (World.mem five_pushed) five_pushed_vector i
         = Ok r →
         DeallocatingVector.subscript 2 six_pushed.1 six_pushed.2 i = Ok r.
Proof.
  apply (push_back_keeps_references 2 (World.mem five_pushed) five_pushed_vector 60).
  left. by vm_compute.
Defined.

Lemma push_all_released {ElementT : Type} `{!DefaultInit ElementT}
    (EPB : Z) (vs : list ElementT)
    (s s' : memory ElementT * DeallocatingVector.t) :
  push_all EPB vs s = Ok s' → released s'.1 = released s.1.
Proof.
  revert s. induction vs as [|v vs IH]; intros s; simpl.
  - by intros [= <-].
  - intros H. apply bind_Ok in H as ([m1 c1] & Hpush & Hall).
    apply IH in Hall. rewrite Hall. simpl.
    destruct s as [m c]. by apply push_back_frame in Hpush as [? _].
Qed.

(** X7. [N] pushes on a new container leave it with exactly
    [max 1 (ceil (N / ELEMENTS_PER_BLOCK))] blocks: a block is allocated
    only when the last one is full. No slot is null, the blocks are owned
    by the container and nothing has been released. *)
Theorem push_back_block_count {ElementT : Type} `{!DefaultInit ElementT}
    (ELEMENTS_PER_BLOCK : Z)
    (m0 : memory ElementT) (vs : list ElementT) :
  0 < ELEMENTS_PER_BLOCK < SIZE_MODULUS →
  Z.of_nat (length vs) < SIZE_MODULUS →
  ∃ m c,
    push_all ELEMENTS_PER_BLOCK vs (DeallocatingVector.construct ELEMENTS_PER_BLOCK m0)
    = Ok (m, c) ∧
    Vector.size (DeallocatingVector.bucket_list c)
    = Z.max 1 ((Z.of_nat (length vs) + ELEMENTS_PER_BLOCK - 1) / ELEMENTS_PER_BLOCK) ∧
    intact (DeallocatingVector.bucket_list c) ∧
    owns ELEMENTS_PER_BLOCK m (DeallocatingVector.bucket_list c) ∧
    released m = released m0.
Proof.
  intros HEPB Hlen.
  pose proof (construct_stores ELEMENTS_PER_BLOCK HEPB m0) as Hst.
  assert (released (DeallocatingVector.construct ELEMENTS_PER_BLOCK m0).1 = released m0)
    as Hrel0 by done.
  assert (Vector.size (DeallocatingVector.bucket_list
                         (DeallocatingVector.construct ELEMENTS_PER_BLOCK m0).2) = 1)
    as Hone by done.
  destruct (DeallocatingVector.construct ELEMENTS_PER_BLOCK m0) as [m1 c1].
  simpl in Hst, Hrel0, Hone.
  destruct (push_all_stores ELEMENTS_PER_BLOCK HEPB vs [] m1 c1 Hst)
    as (m & c & Hall & Hsz & Hint & Hown & [Hle Hup] & _); [simpl; lia|].
  exists m, c. split; [done|].
  pose proof (push_all_released _ _ _ _ Hall) as Hrel. simpl in Hrel, Hle, Hup.
  split; [|by rewrite Hrel].
  destruct vs as [|v vs].
  - simpl in Hall. injection Hall as <- <-. rewrite Hone. simpl.
    rewrite Z.div_small by lia. done.
  - set (n := Z.of_nat (length (v :: vs))) in *.
    assert (0 < n) by (unfold n; simpl; lia).
    set (blocks := Vector.size (DeallocatingVector.bucket_list c)) in *.
    assert (blocks * ELEMENTS_PER_BLOCK < n + ELEMENTS_PER_BLOCK) as Hlt
      by (destruct Hup; lia).
    assert ((n + ELEMENTS_PER_BLOCK - 1) / ELEMENTS_PER_BLOCK = blocks) as ->.
    { symmetry.
      apply (Z.div_unique _ _ _ (n + ELEMENTS_PER_BLOCK - 1 - blocks * ELEMENTS_PER_BLOCK));
        lia. }
    nia.
Qed.

Lemma push_back_block_count_witness :
  ∃ m c,
    push_all 2 [10; 20; 30; 40; 50] (DeallocatingVector.construct 2 Memory.empty)
    = Ok (m, c) ∧
    Vector.size (DeallocatingVector.bucket_list c) = Z.max 1 ((5 + 2 - 1) / 2) ∧
    intact (DeallocatingVector.bucket_list c) ∧
    owns 2 m (DeallocatingVector.bucket_list c) ∧
    released m = released (Memory.empty (ElementT := Z)).
Proof.
  apply (push_back_block_count 2 Memory.empty [10; 20; 30; 40; 50]);
    unfold SIZE_MODULUS; simpl; lia.
Defined.

(** ** More on the draining iterator *)

Section DrainMore.
Context {ElementT : Type} (EPB : Z) (HEPB : 0 < EPB < SIZE_MODULUS).
Implicit Types (w : World.t ElementT) (c : DeallocatingVector.t).

(** A drain that stops at position [e] of a container of [n] elements. *)
Lemma traverse_drained_to w0 (k : nat) n (addrs : list addr) (fuel : nat) w (i e : Z) :
  (k < length (World.vectors w0))%nat →
  NoDup addrs →
  (∀ a, a ∈ addrs → is_Some (live (World.mem w0) !! a)) →
  0 <= i <= e → e <= n → n < SIZE_MODULUS → n <= Z.of_nat (length addrs) * EPB →
  e - i <= Z.of_nat fuel →
  drained w0 k n addrs (Z.to_nat (i / EPB)) w →
  ∃ w',
    DeallocatingVectorRemoveIterator.traverse EPB fuel w
      (IteratorState.make i (Some k)) (IteratorState.make e (Some k))
    = Ok (w', IteratorState.make e (Some k)) ∧
    drained w0 k n addrs (Z.to_nat (e / EPB)) w'.
Proof.
  intros Hk Hnd Hlive Hi He Hn Hcov. revert w i Hi.
  induction fuel as [|fuel IH]; intros w i Hi Hfuel Hdr;
    rewrite traverse_unfold; unfold DeallocatingVectorRemoveIterator.equal;
    cbn [IteratorState.index IteratorState.make]; case_bool_decide as Heq.
  - subst i. by exists w.
  - lia.
  - subst i. by exists w.
  - destruct (increment_drained EPB HEPB w0 k n addrs w i) as (w1 & Hinc & Hdr1);
      try done; try lia.
    destruct (IH w1 (i + 1)) as (w' & Htr & Hdr'); try done; try lia.
    exists w'. split; [|done]. rewrite Hinc. exact Htr.
Qed.

Lemma drained_start w (k : nat) c (addrs : list addr) :
  World.vectors w !! k = Some c →
  DeallocatingVector.bucket_list c = Some <$> addrs →
  drained w k (DeallocatingVector.current_size c) addrs 0 w.
Proof.
  intros Hc Hbl. split; [|split; [|split]].
  - rewrite drop_0. cbn [replicate app]. rewrite <- Hbl.
    symmetry. apply list_insert_id. rewrite Hc. by destruct c.
  - by rewrite take_0, app_nil_r.
  - intros a Ha. rewrite take_0 in Ha. by apply elem_of_nil in Ha.
  - done.
Qed.

Lemma drained_lookup_released (addrs : list addr) (j q : nat) :
  (q < j)%nat →
  (replicate j None ++ (Some <$> drop j addrs)) !! q = Some None.
Proof.
  intros Hq. rewrite lookup_app_l by (rewrite length_replicate; lia).
  by apply lookup_replicate_2.
Qed.

Lemma drained_lookup_kept (addrs : list addr) (j q : nat) :
  (j <= q)%nat →
  (replicate j None ++ (Some <$> drop j addrs)) !! q = (Some <$> addrs) !! q.
Proof.
  intros Hq. rewrite lookup_app_r by (rewrite length_replicate; lia).
  rewrite length_replicate, !list_lookup_fmap, lookup_drop.
  by replace (j + (q - j))%nat with q by lia.
Qed.

Lemma drained_length (addrs : list addr) (j : nat) :
  (j <= length addrs)%nat →
  length (replicate j None ++ (Some <$> drop j addrs)) = length addrs.
Proof.
  intros Hj. rewrite length_app, length_replicate, length_fmap, length_drop. lia.
Qed.

Lemma held_drained (addrs : list addr) (j : nat) :
  held (replicate j None ++ (Some <$> drop j addrs)) = drop j addrs.
Proof.
  rewrite held_app, held_fmap_Some.
  assert (held (replicate j None) = []) as ->; [|done].
  induction j as [|j IH]; [done|]. exact IH.
Qed.

Lemma not_in_take (addrs : list addr) (j q : nat) (a : addr) :
  NoDup addrs → addrs !! q = Some a → (j <= q)%nat → a ∉ take j addrs.
Proof.
  intros Hnd Ha Hq Hin. apply list_elem_of_lookup in Hin as [q' Hq'].
  pose proof (lookup_lt_Some _ _ _ Hq') as Hlt. rewrite length_take in Hlt.
  rewrite lookup_take_lt in Hq' by lia.
  pose proof (NoDup_lookup _ _ _ _ Hnd Ha Hq'). lia.
Qed.

(** Elements of released blocks are gone, the others are untouched. *)
Lemma drained_access w0 (k : nat) c0 (addrs : list addr) (j : nat) w c (i : Z) :
  World.vectors w0 !! k = Some c0 →
  DeallocatingVector.bucket_list c0 = Some <$> addrs →
  NoDup addrs →
  (j <= length addrs)%nat →
  drained w0 k (DeallocatingVector.current_size c0) addrs j w →
  World.vectors w !! k = Some c →
  0 <= i →
  (i / EPB < Z.of_nat j →
   DeallocatingVector.subscript EPB (World.mem w) c i = Undefined ∧
   DeallocatingVectorRemoveIterator.dereference EPB w (IteratorState.make i (Some k))
   = Undefined) ∧
  (Z.of_nat j <= i / EPB →
   DeallocatingVector.subscript EPB (World.mem w) c i
   = DeallocatingVector.subscript EPB (World.mem w0) c0 i ∧
   DeallocatingVector.read EPB (World.mem w) c i
   = DeallocatingVector.read EPB (World.mem w0) c0 i).
Proof.
  intros Hc0 Hbl Hnd Hj (Hvec & Hrel & Hdead & Hkeep) Hc Hi.
  assert (0 <= i / EPB) as Hq by (apply Z.div_pos; lia).
  rewrite Hvec, list_lookup_insert_eq in Hc by (by eapply lookup_lt_Some).
  injection Hc as <-. split.
  - intros Hlt.
    assert (Vector.get (replicate j None ++ (Some <$> drop j addrs)) (i / EPB)
            = Some None) as Hget.
    { unfold Vector.get. rewrite decide_True by done.
      apply drained_lookup_released. lia. }
    unfold DeallocatingVector.subscript, DeallocatingVectorRemoveIterator.dereference,
      World.pointee, Vector.subscript, Vector.at_.
    cbn [IteratorState.index IteratorState.bucket_list IteratorState.make
         DeallocatingVector.bucket_list].
    rewrite Hvec, list_lookup_insert_eq by (by eapply lookup_lt_Some).
    cbn [mbind outcome_bind DeallocatingVector.bucket_list]. by rewrite Hget.
  - intros Hge.
    assert (DeallocatingVector.subscript EPB (World.mem w)
              {| DeallocatingVector.current_size := DeallocatingVector.current_size c0;
                 DeallocatingVector.bucket_list :=
                   replicate j None ++ (Some <$> drop j addrs) |} i
            = DeallocatingVector.subscript EPB (World.mem w0) c0 i) as Hsub.
    { unfold DeallocatingVector.subscript, Vector.subscript, Vector.get.
      cbn [DeallocatingVector.bucket_list].
      rewrite !decide_True by done.
      rewrite drained_lookup_kept, Hbl by lia. rewrite list_lookup_fmap.
      destruct (addrs !! Z.to_nat (i / EPB)) as [a|] eqn:Ha; [|done].
      cbn [fmap option_fmap option_map mbind outcome_bind]. unfold element.
      by rewrite (Hkeep a (not_in_take addrs j _ a Hnd Ha ltac:(lia))). }
    split; [done|]. unfold DeallocatingVector.read. rewrite Hsub.
    destruct (DeallocatingVector.subscript EPB (World.mem w0) c0 i) as [r| | |] eqn:Hr;
      try done.
    apply subscript_Ok in Hr as (a & b & _ & Hl & _ & _ & ->).
    rewrite Hbl, list_lookup_fmap in Hl.
    destruct (addrs !! Z.to_nat (i / EPB)) as [a'|] eqn:Ha; [|done].
    injection Hl as ->. cbn [mbind outcome_bind]. unfold load. cbn [fst snd].
    by rewrite (Hkeep a (not_in_take addrs j _ a Hnd Ha ltac:(lia))).
Qed.

(** An increment over a drained container crosses only released blocks. *)
Lemma increment_released w0 (k : nat) n (addrs : list addr) w (i : Z) :
  (k < length (World.vectors w0))%nat →
  0 <= i → i + 1 <= n → n < SIZE_MODULUS → n <= Z.of_nat (length addrs) * EPB →
  drained w0 k n addrs (Z.to_nat (n / EPB)) w →
  DeallocatingVectorRemoveIterator.increment EPB w (IteratorState.make i (Some k))
  = Ok (w, IteratorState.make (i + 1) (Some k)).
Proof.
  intros Hk Hi Hin Hn Hcov (Hvec & _).
  unfold DeallocatingVectorRemoveIterator.increment.
  cbn [IteratorState.index IteratorState.bucket_list IteratorState.make].
  rewrite (wrap_small (i + 1)) by lia.
  case_decide as Hcross; [|done].
  assert (0 <= i / EPB) as Hq by (apply Z.div_pos; lia).
  assert (i / EPB < n / EPB) as Hlt.
  { pose proof (Z.div_le_mono (i + 1) n EPB ltac:(lia) ltac:(lia)).
    pose proof (Z.div_le_mono i (i + 1) EPB ltac:(lia) ltac:(lia)). lia. }
  unfold World.pointee. rewrite Hvec, list_lookup_insert_eq by done.
  cbn [mbind outcome_bind DeallocatingVector.bucket_list].
  unfold Vector.at_, Vector.get. rewrite decide_True by done.
  rewrite drained_lookup_released by lia.
  cbn [mbind outcome_bind]. by rewrite decide_False by (intros H; by apply H).
Qed.

Lemma traverse_released w0 (k : nat) n (addrs : list addr) (fuel : nat) w (i : Z) :
  (k < length (World.vectors w0))%nat →
  0 <= i <= n → n < SIZE_MODULUS → n <= Z.of_nat (length addrs) * EPB →
  n - i <= Z.of_nat fuel →
  drained w0 k n addrs (Z.to_nat (n / EPB)) w →
  DeallocatingVectorRemoveIterator.traverse EPB fuel w
    (IteratorState.make i (Some k)) (IteratorState.make n (Some k))
  = Ok (w, IteratorState.make n (Some k)).
Proof.
  intros Hk Hi Hn Hcov. revert i Hi.
  induction fuel as [|fuel IH]; intros i Hi Hfuel Hdr;
    rewrite traverse_unfold; unfold DeallocatingVectorRemoveIterator.equal;
    cbn [IteratorState.index IteratorState.make]; case_bool_decide as Heq.
  - by subst i.
  - lia.
  - by subst i.
  - rewrite (increment_released w0 k n addrs w i) by (try done; lia).
    cbn [mbind outcome_bind]. apply IH; [lia|lia|done].
Qed.
End DrainMore.

(** X8. A drain that has advanced from [dbegin()] to position [e] has
    released exactly the blocks before block [e / ELEMENTS_PER_BLOCK], in
    order. Through [operator[]] and through the iterator every index in
    those blocks is undefined behaviour; every index in a later block
    gives the reference and the value it gave before the drain. *)
Theorem partial_drain {ElementT : Type} (ELEMENTS_PER_BLOCK : Z)
    (w : World.t ElementT) (k : nat) (c : DeallocatingVector.t) (e : Z)
    (fuel : nat) :
  let n := DeallocatingVector.size c in
  let blocks := held (DeallocatingVector.bucket_list c) in
  0 < ELEMENTS_PER_BLOCK < SIZE_MODULUS →
  World.vectors w !! k = Some c →
  intact (DeallocatingVector.bucket_list c) →
  owns ELEMENTS_PER_BLOCK (World.mem w) (DeallocatingVector.bucket_list c) →
  0 <= e <= n → n < SIZE_MODULUS →
  n <= Vector.size (DeallocatingVector.bucket_list c) * ELEMENTS_PER_BLOCK →
  e <= Z.of_nat fuel →
  ∃ w' c',
    DeallocatingVectorRemoveIterator.traverse ELEMENTS_PER_BLOCK fuel w
      (Program.dbegin w k) (IteratorState.make e (Some k))
    = Ok (w', IteratorState.make e (Some k)) ∧
    World.vectors w' !! k = Some c' ∧
    released (World.mem w')
    = released (World.mem w) ++ take (Z.to_nat (e / ELEMENTS_PER_BLOCK)) blocks ∧
    ∀ i, 0 <= i →
      (i / ELEMENTS_PER_BLOCK < e / ELEMENTS_PER_BLOCK →
       DeallocatingVector.subscript ELEMENTS_PER_BLOCK (World.mem w') c' i = Undefined ∧
       DeallocatingVectorRemoveIterator.dereference ELEMENTS_PER_BLOCK w'
         (IteratorState.make i (Some k)) = Undefined) ∧
      (e / ELEMENTS_PER_BLOCK <= i / ELEMENTS_PER_BLOCK →
       DeallocatingVector.subscript ELEMENTS_PER_BLOCK (World.mem w') c' i
       = DeallocatingVector.subscript ELEMENTS_PER_BLOCK (World.mem w) c i ∧
       DeallocatingVector.read ELEMENTS_PER_BLOCK (World.mem w') c' i
       = DeallocatingVector.read ELEMENTS_PER_BLOCK (World.mem w) c i).
Proof.
  intros n blocks HEPB Hc Hint Hown He Hn Hcov Hfuel.
  destruct (proj1 (intact_owns ELEMENTS_PER_BLOCK _ _) (conj Hint Hown))
    as (addrs & Hbl & Hnd & Hlive).
  assert (blocks = addrs) as -> by (unfold blocks; by rewrite Hbl, held_fmap_Some).
  unfold Vector.size in Hcov. rewrite Hbl, length_fmap in Hcov.
  assert (0 <= e / ELEMENTS_PER_BLOCK <= Z.of_nat (length addrs)) as Hpassed.
  { split; [apply Z.div_pos; lia|].
    assert (e / ELEMENTS_PER_BLOCK <= n / ELEMENTS_PER_BLOCK)
      by (apply Z.div_le_mono; lia).
    assert (n / ELEMENTS_PER_BLOCK <= Z.of_nat (length addrs))
      by (apply Z.div_le_upper_bound; lia).
    lia. }
  destruct (traverse_drained_to ELEMENTS_PER_BLOCK HEPB w k n addrs fuel w 0 e)
    as (w' & Htr & Hdr); try done; try lia.
  { by eapply lookup_lt_Some. }
  { intros a Ha. destruct (Hlive a Ha) as (b & Hb & _). eauto. }
  { rewrite Z.div_0_l by lia. by apply drained_start. }
  pose proof Hdr as (Hvec & Hrel & _).
  set (c' := {| DeallocatingVector.current_size := n;
                DeallocatingVector.bucket_list :=
                  replicate (Z.to_nat (e / ELEMENTS_PER_BLOCK)) None
                  ++ (Some <$> drop (Z.to_nat (e / ELEMENTS_PER_BLOCK)) addrs) |}) in *.
  assert (World.vectors w' !! k = Some c') as Hc'.
  { rewrite Hvec. apply list_lookup_insert_eq. by eapply lookup_lt_Some. }
  exists w', c'. split; [exact Htr|]. split; [done|].
  split; [done|]. intros i Hi.
  destruct (drained_access ELEMENTS_PER_BLOCK HEPB w k c addrs
              (Z.to_nat (e / ELEMENTS_PER_BLOCK)) w' c' i Hc Hbl Hnd ltac:(lia) Hdr
              Hc' Hi) as [Hgone Hkept].
  split; intros Hq; [apply Hgone|apply Hkept]; lia.
Qed.

Lemma partial_drain_witness :
  ∃ w' c',
    DeallocatingVectorRemoveIterator.traverse 2 3 five_pushed
      (Program.dbegin five_pushed 0) (IteratorState.make 3 (Some 0%nat))
    = Ok (w', IteratorState.make 3 (Some 0%nat)) ∧
    World.vectors w' !! 0%nat = Some c' ∧
    released (World.mem w')
    = released (World.mem five_pushed)
      ++ take (Z.to_nat (3 / 2)) (held (DeallocatingVector.bucket_list five_pushed_vector)) ∧
    ∀ i, 0 <= i →
      (i / 2 < 3 / 2 →
       DeallocatingVector.subscript 2 (World.mem w') c' i = Undefined ∧
       DeallocatingVectorRemoveIterator.dereference 2 w'
         (IteratorState.make i (Some 0%nat)) = Undefined) ∧
      (3 / 2 <= i / 2 →
       DeallocatingVector.subscript 2 (World.mem w') c' i
       = DeallocatingVector.subscript 2 (World.mem five_pushed) five_pushed_vector i ∧
       DeallocatingVector.read 2 (World.mem w') c' i
       = DeallocatingVector.read 2 (World.mem five_pushed) five_pushed_vector i).
Proof.
  apply (partial_drain 2 five_pushed 0 five_pushed_vector 3 3).
  - unfold SIZE_MODULUS. lia.
  - by vm_compute.
  - by vm_compute.
  - exact five_pushed_owns.
  - simpl. lia.
  - unfold SIZE_MODULUS. simpl. lia.
  - by vm_compute.
  - lia.
Defined.

(** X9. A second drain of a drained container releases nothing and frees
    no block twice: every boundary it crosses belongs to a slot that is
    already null, and the state after it is the state before it. *)
Theorem second_drain_releases_nothing {ElementT : Type} (ELEMENTS_PER_BLOCK : Z)
    (w : World.t ElementT) (k : nat) (c : DeallocatingVector.t) (fuel : nat) :
  let n := DeallocatingVector.size c in
  0 < ELEMENTS_PER_BLOCK < SIZE_MODULUS →
  World.vectors w !! k = Some c →
  intact (DeallocatingVector.bucket_list c) →
  owns ELEMENTS_PER_BLOCK (World.mem w) (DeallocatingVector.bucket_list c) →
  0 <= n < SIZE_MODULUS →
  n <= Vector.size (DeallocatingVector.bucket_list c) * ELEMENTS_PER_BLOCK →
  n <= Z.of_nat fuel →
  ∃ w' last,
    Program.dend w k = Ok last ∧
    DeallocatingVectorRemoveIterator.traverse ELEMENTS_PER_BLOCK fuel w
      (Program.dbegin w k) last = Ok (w', last) ∧
    Program.dend w' k = Ok last ∧
    DeallocatingVectorRemoveIterator.traverse ELEMENTS_PER_BLOCK fuel w'
      (Program.dbegin w' k) last = Ok (w', last).
Proof.
  intros n HEPB Hc Hint Hown Hn Hcov Hfuel.
  destruct (proj1 (intact_owns ELEMENTS_PER_BLOCK _ _) (conj Hint Hown))
    as (addrs & Hbl & Hnd & Hlive).
  unfold Vector.size in Hcov. rewrite Hbl, length_fmap in Hcov.
  pose proof (lookup_lt_Some _ _ _ Hc) as Hk.
  destruct (traverse_drained_to ELEMENTS_PER_BLOCK HEPB w k n addrs fuel w 0 n)
    as (w' & Htr & Hdr); try done; try lia.
  { intros a Ha. destruct (Hlive a Ha) as (b & Hb & _). eauto. }
  { rewrite Z.div_0_l by lia. by apply drained_start. }
  exists w', (IteratorState.make n (Some k)).
  unfold Program.dend, Program.dbegin. rewrite Hc.
  split; [done|]. split; [exact Htr|].
  destruct Hdr as (Hvec & Hrest). rewrite Hvec at 1.
  rewrite list_lookup_insert_eq by done. split; [done|].
  apply (traverse_released ELEMENTS_PER_BLOCK HEPB w k n addrs fuel w' 0);
    try done; try lia.
Qed.

Lemma second_drain_releases_nothing_witness :
  ∃ w' last,
    Program.dend five_pushed 0 = Ok last ∧
    DeallocatingVectorRemoveIterator.traverse 2 5 five_pushed
      (Program.dbegin five_pushed 0) last = Ok (w', last) ∧
    Program.dend w' 0 = Ok last ∧
    DeallocatingVectorRemoveIterator.traverse 2 5 w'
      (Program.dbegin w' 0) last = Ok (w', last).
Proof.
  apply (second_drain_releases_nothing 2 five_pushed 0 five_pushed_vector 5).
  - unfold SIZE_MODULUS. lia.
  - by vm_compute.
  - by vm_compute.
  - exact five_pushed_owns.
  - unfold SIZE_MODULUS. simpl. lia.
  - by vm_compute.
  - simpl. lia.
Defined.

(** X10. A full drain followed by [clear()], which is also what the
    destructor runs, releases every block of the container exactly once
    and in increasing block order: the drain releases the blocks it has
    passed, [clear()] skips their null slots and releases the rest. *)
Theorem drain_then_clear_releases_all {ElementT : Type} (ELEMENTS_PER_BLOCK : Z)
    (w : World.t ElementT) (k : nat) (c : DeallocatingVector.t) (fuel : nat) :
  let n := DeallocatingVector.size c in
  let blocks := held (DeallocatingVector.bucket_list c) in
  0 < ELEMENTS_PER_BLOCK < SIZE_MODULUS →
  World.vectors w !! k = Some c →
  intact (DeallocatingVector.bucket_list c) →
  owns ELEMENTS_PER_BLOCK (World.mem w) (DeallocatingVector.bucket_list c) →
  0 <= n < SIZE_MODULUS →
  n <= Vector.size (DeallocatingVector.bucket_list c) * ELEMENTS_PER_BLOCK →
  n <= Z.of_nat fuel →
  ∃ w' c' m'',
    DeallocatingVectorRemoveIterator.traverse ELEMENTS_PER_BLOCK fuel w
      (Program.dbegin w k) (IteratorState.make n (Some k))
    = Ok (w', IteratorState.make n (Some k)) ∧
    World.vectors w' !! k = Some c' ∧
    DeallocatingVector.destructor (World.mem w') c'
    = Ok (m'', {| DeallocatingVector.current_size := 0;
                  DeallocatingVector.bucket_list := [] |}) ∧
    released m'' = released (World.mem w) ++ blocks ∧
    NoDup blocks ∧
    ∀ a, a ∈ blocks → live m'' !! a = None.
Proof.
  intros n blocks HEPB Hc Hint Hown Hn Hcov Hfuel.
  destruct (proj1 (intact_owns ELEMENTS_PER_BLOCK _ _) (conj Hint Hown))
    as (addrs & Hbl & Hnd & Hlive).
  assert (blocks = addrs) as -> by (unfold blocks; by rewrite Hbl, held_fmap_Some).
  unfold Vector.size in Hcov. rewrite Hbl, length_fmap in Hcov.
  pose proof (lookup_lt_Some _ _ _ Hc) as Hk.
  destruct (traverse_drained_to ELEMENTS_PER_BLOCK HEPB w k n addrs fuel w 0 n)
    as (w' & Htr & Hvec & Hrel & Hdead & Hkeep); try done; try lia.
  { intros a Ha. destruct (Hlive a Ha) as (b & Hb & _). eauto. }
  { rewrite Z.div_0_l by lia. by apply drained_start. }
  set (j := Z.to_nat (n / ELEMENTS_PER_BLOCK)) in *.
  set (bl' := replicate j None ++ (Some <$> drop j addrs)) in *.
  assert (owns ELEMENTS_PER_BLOCK (World.mem w') bl') as Hown'.
  { unfold owns, bl'. rewrite held_drained. split.
    - rewrite <- (take_drop j addrs) in Hnd. by apply NoDup_app in Hnd as (_ & _ & ?).
    - intros a Ha.
      assert (a ∉ take j addrs) as Hnotin.
      { rewrite <- (take_drop j addrs) in Hnd.
        apply NoDup_app in Hnd as (_ & Hdisj & _). intros Hx. by apply (Hdisj a). }
      rewrite (Hkeep a Hnotin). apply Hlive.
      rewrite <- (take_drop j addrs). apply elem_of_app. by right. }
  destruct (clear_buckets_spec ELEMENTS_PER_BLOCK bl' (World.mem w') Hown')
    as (m'' & Hrun & Hrel'' & Hdead'' & Hkeep'').
  unfold bl' in Hrel'', Hdead'', Hkeep''. rewrite held_drained in Hrel'', Hdead'', Hkeep''.
  eexists w', _, m''. split; [exact Htr|]. split.
  { rewrite Hvec. by apply list_lookup_insert_eq. }
  split.
  { unfold DeallocatingVector.destructor, DeallocatingVector.clear.
    cbn [DeallocatingVector.bucket_list]. fold bl'. by rewrite Hrun. }
  split; [by rewrite Hrel'', Hrel, <- app_assoc, take_drop|].
  split; [done|]. intros a Ha.
  destruct (decide (a ∈ drop j addrs)) as [Hin|Hnin]; [by apply Hdead''|].
  rewrite Hkeep'' by done. apply Hdead.
  rewrite <- (take_drop j addrs) in Ha. apply elem_of_app in Ha. tauto.
Qed.

Lemma drain_then_clear_releases_all_witness :
  ∃ w' c' m'',
    DeallocatingVectorRemoveIterator.traverse 2 5 five_pushed
      (Program.dbegin five_pushed 0) (IteratorState.make 5 (Some 0%nat))
    = Ok (w', IteratorState.make 5 (Some 0%nat)) ∧
    World.vectors w' !! 0%nat = Some c' ∧
    DeallocatingVector.destructor (World.mem w') c'
    = Ok (m'', {| DeallocatingVector.current_size := 0;
                  DeallocatingVector.bucket_list := [] |}) ∧
    released m''
    = released (World.mem five_pushed)
      ++ held (DeallocatingVector.bucket_list five_pushed_vector) ∧
    NoDup (held (DeallocatingVector.bucket_list five_pushed_vector)) ∧
    ∀ a, a ∈ held (DeallocatingVector.bucket_list five_pushed_vector) →
         live m'' !! a = None.
Proof.
  apply (drain_then_clear_releases_all 2 five_pushed 0 five_pushed_vector 5).
  - unfold SIZE_MODULUS. lia.
  - by vm_compute.
  - by vm_compute.
  - exact five_pushed_owns.
  - unfold SIZE_MODULUS. simpl. lia.
  - by vm_compute.
  - simpl. lia.
Defined.

(** ** More on [resize] *)

Section ResizeMore.
Context {ElementT : Type} `{!DefaultInit ElementT} (EPB : Z) (HEPB : 0 < EPB < SIZE_MODULUS).
Implicit Types (m : memory ElementT) (c : DeallocatingVector.t).

(** What the growing loop has done when it ends: it has appended new,
    empty arrays and touched nothing else. *)
Lemma resize_grow_Ok fuel new_size m c m' c' :
  DeallocatingVector.resize_grow EPB fuel new_size m c = Ok (m', c') →
  ∃ news : list addr,
    c' = {| DeallocatingVector.current_size := DeallocatingVector.current_size c;
            DeallocatingVector.bucket_list :=
              DeallocatingVector.bucket_list c ++ (Some <$> news) |} ∧
    NoDup news ∧
    (∀ a, a ∈ news →
          live m !! a = None ∧
          live m' !! a = Some {| extent := EPB; cells := default_cells EPB |}) ∧
    (∀ a, a ∉ news → live m' !! a = live m !! a) ∧
    released m' = released m.
Proof.
  revert m c. induction fuel as [|fuel IH]; intros m c;
    rewrite resize_grow_unfold; case_decide as Hcap; try done.
  - intros [= <- <-]. exists []. rewrite app_nil_r. destruct c.
    split; [done|]. split; [constructor|]. split; [|done].
    intros a Ha. by apply elem_of_nil in Ha.
  - intros H. apply IH in H as (news & -> & Hnd & Hnew & Hold & Hrel).
    destruct (new_array_fresh EPB m) as [Hfresh _].
    pose proof (new_array_live EPB m) as Hlive.
    set (a0 := (new_array EPB m).1) in *. set (m1 := (new_array EPB m).2) in *.
    assert (a0 ∉ news) as Hnotin.
    { intros Hin. destruct (Hnew a0 Hin) as [Hnone _].
      rewrite Hlive, decide_True in Hnone by done. done. }
    exists (a0 :: news). cbn [DeallocatingVector.current_size
                              DeallocatingVector.bucket_list].
    split; [by rewrite <- app_assoc|]. split; [by constructor|].
    split; [|split; [|done]].
    + intros a Ha. apply elem_of_cons in Ha as [->|Ha].
      * split; [done|]. rewrite (Hold a0 Hnotin), Hlive. by rewrite decide_True.
      * destruct (Hnew a Ha) as [Hnone Hsome]. split; [|done].
        rewrite Hlive in Hnone. by case_decide.
    + intros a Ha. rewrite not_elem_of_cons in Ha. destruct Ha as [Hne Ha].
      rewrite (Hold a Ha), Hlive. by rewrite decide_False.
  - intros [= <- <-]. exists []. rewrite app_nil_r. destruct c.
    split; [done|]. split; [constructor|]. split; [|done].
    intros a Ha. by apply elem_of_nil in Ha.
Qed.

(** The growing branch keeps a sound container sound. *)
Lemma resize_grow_sound fuel new_size m c m' c' :
  intact (DeallocatingVector.bucket_list c) →
  owns EPB m (DeallocatingVector.bucket_list c) →
  DeallocatingVector.resize_grow EPB fuel new_size m c = Ok (m', c') →
  intact (DeallocatingVector.bucket_list c') ∧
  owns EPB m' (DeallocatingVector.bucket_list c').
Proof.
  intros Hint Hown H.
  destruct (proj1 (intact_owns EPB m _) (conj Hint Hown)) as (addrs & Hbl & Hnd & Hlive).
  apply resize_grow_Ok in H as (news & -> & Hnd' & Hnew & Hold & Hrel).
  cbn [DeallocatingVector.bucket_list]. rewrite Hbl, <- fmap_app.
  apply intact_owns. exists (addrs ++ news). split; [done|]. split.
  - apply NoDup_app. split; [done|]. split; [|done].
    intros a Ha Ha'. destruct (Hlive a Ha) as (b & Hb & _).
    destruct (Hnew a Ha') as [Hnone _]. congruence.
  - intros a Ha. destruct (decide (a ∈ news)) as [Hin|Hnin].
    + destruct (Hnew a Hin) as [_ Hsome]. eauto.
    + rewrite (Hold a Hnin). apply Hlive. apply elem_of_app in Ha. tauto.
Qed.
End ResizeMore.

(** X11. After a growing [resize(new_size)] of a sound container,
    [operator[](i)] is a valid reference for every [i < new_size], the
    container still owns all its blocks, the blocks that were live are
    untouched and nothing was released. The elements in the appended
    blocks are default-initialised: reading one before it is assigned
    gives the default-constructed value of a class type and is undefined
    behaviour for a type without initialisation. *)
Theorem resize_grow_exposes {ElementT : Type} `{!DefaultInit ElementT}
    (ELEMENTS_PER_BLOCK : Z) (fuel : nat) (m : memory ElementT)
    (c : DeallocatingVector.t) (new_size : Z)
    (m' : memory ElementT) (c' : DeallocatingVector.t) :
  0 < ELEMENTS_PER_BLOCK < SIZE_MODULUS →
  intact (DeallocatingVector.bucket_list c) →
  owns ELEMENTS_PER_BLOCK m (DeallocatingVector.bucket_list c) →
  DeallocatingVector.size c <= new_size →
  DeallocatingVector.resize ELEMENTS_PER_BLOCK fuel m c new_size = Ok (m', c') →
  intact (DeallocatingVector.bucket_list c') ∧
  owns ELEMENTS_PER_BLOCK m' (DeallocatingVector.bucket_list c') ∧
  released m' = released m ∧
  (∀ a b, live m !! a = Some b → live m' !! a = Some b) ∧
  (∀ i, 0 <= i < new_size →
        ∃ a, DeallocatingVector.subscript ELEMENTS_PER_BLOCK m' c' i
             = Ok (a, i mod ELEMENTS_PER_BLOCK)) ∧
  (∀ i, Vector.size (DeallocatingVector.bucket_list c) * ELEMENTS_PER_BLOCK <= i
        < new_size →
        DeallocatingVector.read ELEMENTS_PER_BLOCK m' c' i
        = match default_init with
          | Some d => Ok d
          | None => Undefined
          end).
Proof.
  intros HEPB Hint Hown Hge. unfold DeallocatingVector.resize, DeallocatingVector.size in *.
  rewrite decide_True by lia. intros H.
  apply bind_Ok in H as ([m1 c1] & Hrun & H). injection H as <- <-.
  cbn [DeallocatingVector.bucket_list].
  destruct (resize_grow_sound ELEMENTS_PER_BLOCK HEPB _ _ _ _ _ _ Hint Hown Hrun)
    as [Hint1 Hown1].
  pose proof (resize_grow_result ELEMENTS_PER_BLOCK _ _ _ _ _ _ Hrun) as [_ Hcap].
  destruct (resize_grow_Ok ELEMENTS_PER_BLOCK _ _ _ _ _ _ Hrun)
    as (news & Hc1 & Hnd & Hnew & Hold & Hrel).
  split; [done|]. split; [done|]. split; [done|].
  split.
  { intros a b Hb. rewrite Hold; [done|]. intros Hin.
    destruct (Hnew a Hin) as [Hnone _].
    pose proof (eq_trans (eq_sym Hb) Hnone). done. }
  assert (new_size <= Vector.size (DeallocatingVector.bucket_list c1)
                      * ELEMENTS_PER_BLOCK) as Hcov.
  { unfold DeallocatingVector.capacity in Hcap.
    pose proof (wrap_le (Vector.size (DeallocatingVector.bucket_list c1)
                         * ELEMENTS_PER_BLOCK) ltac:(unfold Vector.size; nia)). lia. }
  destruct (proj1 (intact_owns ELEMENTS_PER_BLOCK m1 _) (conj Hint1 Hown1))
    as (addrs1 & Hbl1 & Hnd1 & Hlive1).
  assert (∀ i, 0 <= i < new_size →
            ∃ a, addrs1 !! Z.to_nat (i / ELEMENTS_PER_BLOCK) = Some a ∧
                 DeallocatingVector.subscript ELEMENTS_PER_BLOCK m1
                   {| DeallocatingVector.current_size := new_size;
                      DeallocatingVector.bucket_list :=
                        DeallocatingVector.bucket_list c1 |} i
                 = Ok (a, i mod ELEMENTS_PER_BLOCK)) as Hvalid.
  { intros i Hi.
    assert (0 <= i / ELEMENTS_PER_BLOCK) as Hq by (apply Z.div_pos; lia).
    assert (i / ELEMENTS_PER_BLOCK < Z.of_nat (length addrs1)) as Hlt.
    { apply Z.div_lt_upper_bound; [lia|].
      unfold Vector.size in Hcov. rewrite Hbl1, length_fmap in Hcov. lia. }
    destruct (lookup_lt_is_Some_2 addrs1 (Z.to_nat (i / ELEMENTS_PER_BLOCK)))
      as [a Ha]; [lia|].
    destruct (Hlive1 a) as (b & Hb & He); [by eapply list_elem_of_lookup_2|].
    exists a. split; [done|]. apply subscript_Ok. exists a, b.
    cbn [DeallocatingVector.bucket_list]. rewrite Hbl1, list_lookup_fmap, Ha.
    pose proof (Z.mod_pos_bound i ELEMENTS_PER_BLOCK ltac:(lia)).
    repeat split; try done; lia. }
  split.
  - intros i Hi. destruct (Hvalid i Hi) as (a & _ & Hsub). eauto.
  - intros i Hi.
    assert (0 <= Vector.size (DeallocatingVector.bucket_list c)) by (unfold Vector.size; lia).
    destruct (Hvalid i ltac:(nia)) as (a & Ha & Hsub).
    unfold DeallocatingVector.read. rewrite Hsub. cbn [mbind outcome_bind].
    assert (a ∈ news) as Hin.
    { rewrite Hc1 in Hbl1. cbn [DeallocatingVector.bucket_list] in Hbl1.
      assert (Z.of_nat (length (DeallocatingVector.bucket_list c))
              <= i / ELEMENTS_PER_BLOCK) as Hq
        by (apply Z.div_le_lower_bound; unfold Vector.size in *; lia).
      assert ((Some <$> addrs1) !! Z.to_nat (i / ELEMENTS_PER_BLOCK) = Some (Some a))
        as Hl by (by rewrite list_lookup_fmap, Ha).
      rewrite <- Hbl1, lookup_app_r, list_lookup_fmap in Hl by lia.
      destruct (news !! _) as [a'|] eqn:Ha'; [|done]. injection Hl as ->.
      by eapply list_elem_of_lookup_2. }
    destruct (Hnew a Hin) as [_ Hsome]. unfold load. cbn [fst snd].
    rewrite Hsome. cbn [cells].
    pose proof (Z.mod_pos_bound i ELEMENTS_PER_BLOCK ltac:(lia)).
    rewrite lookup_default_cells, decide_True by lia.
    unfold default_init. by destruct DefaultInit0.
Qed.

Lemma resize_grow_exposes_witness :
  intact (DeallocatingVector.bucket_list grown.2) ∧
  owns 2 grown.1 (DeallocatingVector.bucket_list grown.2) ∧
  released grown.1 = released (World.mem five_pushed) ∧
  (∀ a b, live (World.mem five_pushed) !! a = Some b → live grown.1 !! a = Some b) ∧
  (∀ i, 0 <= i < 9 →
        ∃ a, DeallocatingVector.subscript 2 grown.1 grown.2 i = Ok (a, i mod 2)) ∧
  (∀ i, Vector.size (DeallocatingVector.bucket_list five_pushed_vector) * 2 <= i < 9 →
        DeallocatingVector.read 2 grown.1 grown.2 i
        = match default_init with
          | Some d => Ok d
          | None => Undefined
          end).
Proof.
  apply (resize_grow_exposes 2 5 (World.mem five_pushed) five_pushed_vector 9).
  - unfold SIZE_MODULUS. lia.
  - by vm_compute.
  - exact five_pushed_owns.
  - simpl. lia.
  - by vm_compute.
Defined.

(** The same at an element type with a default constructor: after
    construction and [resize(6)] with blocks of four elements, the
    elements of both blocks read as the default-constructed value, and
    an index beyond the blocks is still undefined behaviour. *)
Example resize_grow_default_constructs :
  ∃ m c m' c',
    @DeallocatingVector.construct Z member_initialised 4 Memory.empty = (m, c) ∧
    @DeallocatingVector.resize Z member_initialised 4 1 m c 6 = Ok (m', c') ∧
    DeallocatingVector.size c' = 6 ∧
    DeallocatingVector.read 4 m' c' 0 = Ok 42 ∧
    DeallocatingVector.read 4 m' c' 4 = Ok 42 ∧
    DeallocatingVector.read 4 m' c' 8 = Undefined.
Proof. eexists _, _, _, _. repeat split; by vm_compute. Qed.

(** X12. A shrinking [resize] of a sound container releases every block
    the container holds and allocates none. It keeps the first
    [1 + new_size / ELEMENTS_PER_BLOCK] pointers, which now dangle:
    [operator[]] is undefined behaviour at every index, and [clear()], so
    also the destructor, deletes a released block a second time. *)
Theorem resize_shrink_invalidates {ElementT : Type} `{!DefaultInit ElementT}
    (ELEMENTS_PER_BLOCK : Z)
    (fuel : nat) (m : memory ElementT) (c : DeallocatingVector.t) (new_size : Z) :
  0 < ELEMENTS_PER_BLOCK < SIZE_MODULUS →
  intact (DeallocatingVector.bucket_list c) →
  owns ELEMENTS_PER_BLOCK m (DeallocatingVector.bucket_list c) →
  covered ELEMENTS_PER_BLOCK c →
  0 <= new_size < DeallocatingVector.size c →
  ∃ m' c',
    DeallocatingVector.resize ELEMENTS_PER_BLOCK fuel m c new_size = Ok (m', c') ∧
    DeallocatingVector.size c' = new_size ∧
    DeallocatingVector.bucket_list c'
    = take (Z.to_nat (1 + new_size / ELEMENTS_PER_BLOCK))
        (DeallocatingVector.bucket_list c) ∧
    released m' = released m ++ held (DeallocatingVector.bucket_list c) ∧
    (∀ a, is_Some (live m' !! a) → is_Some (live m !! a)) ∧
    (∀ i, DeallocatingVector.subscript ELEMENTS_PER_BLOCK m' c' i = Undefined) ∧
    DeallocatingVector.clear m' c' = Undefined ∧
    DeallocatingVector.destructor m' c' = Undefined.
Proof.
  intros HEPB Hint Hown Hcov Hns. unfold DeallocatingVector.size in Hns.
  destruct (resize_shrink_spec ELEMENTS_PER_BLOCK HEPB fuel m c new_size Hown Hcov Hns)
    as (m' & Hrun & Hrel & Hdead & Hkeep).
  eexists m', _. split; [exact Hrun|]. split; [done|]. split; [done|].
  split; [done|]. cbn [DeallocatingVector.bucket_list].
  set (kept := Z.to_nat (1 + new_size / ELEMENTS_PER_BLOCK)).
  assert (∀ (q : nat) p, take kept (DeallocatingVector.bucket_list c) !! q = Some p →
            ∃ a, p = Some a ∧ live m' !! a = None) as Hdangling.
  { intros q p Hq. apply lookup_take_Some in Hq as [Hq _].
    rewrite Hint, list_lookup_fmap in Hq.
    destruct (held (DeallocatingVector.bucket_list c) !! q) as [a|] eqn:Ha; [|done].
    injection Hq as <-. exists a. split; [done|]. apply Hdead.
    by eapply list_elem_of_lookup_2. }
  split; [|split].
  - intros a Ha. destruct (decide (a ∈ held (DeallocatingVector.bucket_list c)))
      as [Hin|Hnin].
    + destruct Ha as [b Hb]. pose proof (eq_trans (eq_sym Hb) (Hdead a Hin)). done.
    + destruct Ha as [b Hb]. exists b. exact (eq_trans (eq_sym (Hkeep a Hnin)) Hb).
  - intros i. unfold DeallocatingVector.subscript, Vector.subscript, Vector.get.
    cbn [DeallocatingVector.bucket_list].
    case_decide; [|done].
    destruct (take kept _ !! _) as [p|] eqn:Hp; [|done].
    destruct (Hdangling _ _ Hp) as (a & -> & Hnone).
    cbn [mbind outcome_bind]. unfold element. by rewrite Hnone.
  - assert (∃ a rest, take kept (DeallocatingVector.bucket_list c) = Some a :: rest
                      ∧ live m' !! a = None) as (a & rest & Heq & Hnone).
    { destruct Hcov as [Hrange Hcov]. unfold Vector.size in Hcov.
      destruct (take kept (DeallocatingVector.bucket_list c)) as [|p rest] eqn:Htake.
      - apply (f_equal length) in Htake. rewrite length_take in Htake.
        assert (0 <= new_size / ELEMENTS_PER_BLOCK) by (apply Z.div_pos; lia).
        unfold kept in Htake. simpl in Htake. nia.
      - destruct (Hdangling 0%nat p) as (a & -> & Hnone); [done|].
        by exists a, rest. }
    assert (DeallocatingVector.clear m'
              {| DeallocatingVector.current_size := new_size;
                 DeallocatingVector.bucket_list :=
                   take kept (DeallocatingVector.bucket_list c) |} = Undefined) as Hclear.
    { unfold DeallocatingVector.clear. cbn [DeallocatingVector.bucket_list].
      rewrite Heq. cbn [DeallocatingVector.clear_buckets].
      rewrite decide_True by done. unfold delete_array. by rewrite Hnone. }
    split; [exact Hclear|exact Hclear].
Qed.

Lemma resize_shrink_invalidates_witness :
  ∃ m' c',
    DeallocatingVector.resize 2 0 (World.mem five_pushed) five_pushed_vector 1
    = Ok (m', c') ∧
    DeallocatingVector.size c' = 1 ∧
    DeallocatingVector.bucket_list c'
    = take (Z.to_nat (1 + 1 / 2)) (DeallocatingVector.bucket_list five_pushed_vector) ∧
    released m'
    = released (World.mem five_pushed)
      ++ held (DeallocatingVector.bucket_list five_pushed_vector) ∧
    (∀ a, is_Some (live m' !! a) → is_Some (live (World.mem five_pushed) !! a)) ∧
    (∀ i, DeallocatingVector.subscript 2 m' c' i = Undefined) ∧
    DeallocatingVector.clear m' c' = Undefined ∧
    DeallocatingVector.destructor m' c' = Undefined.
Proof.
  apply (resize_shrink_invalidates 2 0 (World.mem five_pushed) five_pushed_vector 1).
  - unfold SIZE_MODULUS. lia.
  - by vm_compute.
  - exact five_pushed_owns.
  - split; [unfold SIZE_MODULUS; simpl; lia|by vm_compute].
  - simpl. lia.
Defined.

(** ** [swap] *)

(** The list in which the entries [k] and [j] of [l] are exchanged. *)
Lemma lookup_exchanged {A : Type} (l : list A) (k j i : nat) (x y : A) :
  l !! k = Some x → l !! j = Some y →
  <[j := x]> (<[k := y]> l) !! i
  = if decide (i = j) then Some x else if decide (i = k) then Some y else l !! i.
Proof.
  intros Hk Hj.
  pose proof (lookup_lt_Some _ _ _ Hk). pose proof (lookup_lt_Some _ _ _ Hj).
  case_decide as Hij.
  - subst i. apply list_lookup_insert_eq. by rewrite length_insert.
  - rewrite list_lookup_insert_ne by done. case_decide as Hik.
    + subst i. by apply list_lookup_insert_eq.
    + by rewrite list_lookup_insert_ne.
Qed.

Lemma swap_pair (c d : DeallocatingVector.t) : DeallocatingVector.swap c d = (d, c).
Proof. by destruct c, d. Qed.

Lemma exec_swap {ElementT : Type} `{!DefaultInit ElementT}
    (EPB : Z) (fuel : nat) (w : World.t ElementT)
    (k j : nat) c d :
  World.vectors w !! k = Some c → World.vectors w !! j = Some d →
  Program.exec EPB fuel (Program.Swap k j) w
  = Ok {| World.mem := World.mem w;
          World.vectors := <[j := c]> (<[k := d]> (World.vectors w)) |}.
Proof.
  intros Hc Hd. cbn [Program.exec]. rewrite Hc, Hd. by rewrite swap_pair.
Qed.

(** X13. [swap] exchanges the size and the block sequence of two
    containers and touches neither the free store nor any other
    container; no block is copied or reallocated. A second [swap] of the
    same two containers restores the state. *)
Theorem swap_exchanges {ElementT : Type} `{!DefaultInit ElementT}
    (ELEMENTS_PER_BLOCK : Z) (fuel : nat)
    (w : World.t ElementT) (k j : nat) :
  is_Some (World.vectors w !! k) →
  is_Some (World.vectors w !! j) →
  ∃ w',
    Program.exec ELEMENTS_PER_BLOCK fuel (Program.Swap k j) w = Ok w' ∧
    World.mem w' = World.mem w ∧
    World.vectors w' !! k = World.vectors w !! j ∧
    World.vectors w' !! j = World.vectors w !! k ∧
    (∀ i, i ≠ k → i ≠ j → World.vectors w' !! i = World.vectors w !! i) ∧
    Program.exec ELEMENTS_PER_BLOCK fuel (Program.Swap k j) w' = Ok w.
Proof.
  intros [c Hc] [d Hd].
  set (w' := {| World.mem := World.mem w;
                World.vectors := <[j := c]> (<[k := d]> (World.vectors w)) |}).
  assert (∀ i, World.vectors w' !! i
               = if decide (i = j) then Some c
                 else if decide (i = k) then Some d else World.vectors w !! i) as Hw'.
  { intros i. apply (lookup_exchanged _ k j i c d Hc Hd). }
  assert (World.vectors w' !! k = Some d) as Hk'.
  { rewrite Hw'. case_decide as Hkj; [|by rewrite decide_True]. subst k. congruence. }
  assert (World.vectors w' !! j = Some c) as Hj'.
  { rewrite Hw'. by rewrite decide_True. }
  exists w'. split; [by apply exec_swap|]. split; [done|].
  split; [by rewrite Hk', Hd|]. split; [by rewrite Hj', Hc|]. split.
  - intros i Hik Hij. rewrite Hw'. by rewrite !decide_False.
  - rewrite (exec_swap _ _ w' k j d c Hk' Hj'). cbn [World.mem World.vectors w'].
    destruct w as [m l]. f_equal. f_equal. cbn [World.vectors] in *.
    apply list_eq. intros i.
    etrans; [exact (lookup_exchanged _ k j i d c Hk' Hj')|].
    case_decide as Hij; [by subst i|]. case_decide as Hik; [by subst i|].
    etrans; [exact (lookup_exchanged _ k j i c d Hc Hd)|]. by rewrite !decide_False.
Qed.

Lemma swap_exchanges_witness :
  ∃ w',
    Program.exec 2 0 (Program.Swap 0 1) busy_world = Ok w' ∧
    World.mem w' = World.mem busy_world ∧
    World.vectors w' !! 0%nat = World.vectors busy_world !! 1%nat ∧
    World.vectors w' !! 1%nat = World.vectors busy_world !! 0%nat ∧
    (∀ i, i ≠ 0%nat → i ≠ 1%nat →
          World.vectors w' !! i = World.vectors busy_world !! i) ∧
    Program.exec 2 0 (Program.Swap 0 1) w' = Ok busy_world.
Proof.
  apply (swap_exchanges 2 0 busy_world 0 1).
  - vm_compute. eauto.
  - vm_compute. eauto.
Defined.

(** ** Soundness of the states of a program *)

Section Sound.
Context {ElementT : Type} `{!DefaultInit ElementT} (EPB : Z) (HEPB : 0 < EPB < SIZE_MODULUS).
Implicit Types (m : memory ElementT) (c : DeallocatingVector.t).
Implicit Types (w : World.t ElementT) (o : Program.op (ElementT := ElementT)).

Lemma push_back_total m c (v : ElementT) :
  well_formed EPB m c → ∃ m' c', DeallocatingVector.push_back EPB m c v = Ok (m', c').
Proof.
  intros (Hint & Hown & Hrange & Hcov).
  destruct (proj1 (intact_owns EPB m _) (conj Hint Hown)) as (addrs & Hbl & Hnd & Hlive).
  pose proof (Z.mod_pos_bound (DeallocatingVector.current_size c) EPB ltac:(lia)) as Ho.
  unfold DeallocatingVector.push_back, DeallocatingVector.size,
    DeallocatingVector.capacity.
  case_decide as Hfull.
  - pose proof (new_array_live EPB m (new_array EPB m).1) as Hnew.
    rewrite decide_True in Hnew by done.
    destruct (new_array EPB m) as [a0 m1]. cbn [fst snd] in Hnew.
    unfold Vector.back. rewrite last_snoc. cbn [mbind outcome_bind].
    unfold element. rewrite Hnew. cbn [extent]. rewrite decide_True by lia.
    cbn [mbind outcome_bind]. rewrite (store_Ok m1 (a0, _) v _ Hnew). eauto.
  - destruct (last addrs) as [al|] eqn:Hlast.
    + assert (al ∈ addrs) as Hin.
      { rewrite last_lookup in Hlast. by eapply list_elem_of_lookup_2. }
      destruct (Hlive al Hin) as (b & Hb & He).
      unfold Vector.back. rewrite Hbl, fmap_last, Hlast. cbn [fmap option_fmap option_map].
      cbn [mbind outcome_bind]. unfold element. rewrite Hb, decide_True by lia.
      cbn [mbind outcome_bind]. rewrite (store_Ok m (al, _) v _ Hb). eauto.
    + apply last_None in Hlast. subst addrs. exfalso. apply Hfull.
      unfold Vector.size in *. rewrite Hbl in *. simpl in *.
      rewrite wrap_small by (unfold SIZE_MODULUS; lia). lia.
Qed.

Lemma push_back_local m c (v : ElementT) m' c' :
  well_formed EPB m c →
  DeallocatingVector.push_back EPB m c v = Ok (m', c') →
  local_effect EPB m c m' c'.
Proof.
  intros (Hint & Hown & Hcov) Hpush.
  pose proof (push_back_covered EPB HEPB m c v m' c' Hcov Hpush) as Hcov'.
  destruct (proj1 (intact_owns EPB m _) (conj Hint Hown)) as (addrs & Hbl & Hnd & Hlive).
  apply push_back_Ok in Hpush
    as (m1 & bl1 & a0 & b0 & Hcase & Hlast & Hb0 & Ho & -> & ->).
  cbn [DeallocatingVector.bucket_list] in *.
  assert (∃ addrs1, bl1 = Some <$> addrs1 ∧ NoDup addrs1 ∧ a0 ∈ addrs1 ∧
            (∀ a, a ∈ addrs1 → ∃ b, live m1 !! a = Some b ∧ extent b = EPB) ∧
            (∀ a, a ∈ addrs1 → a ∈ addrs ∨ live m !! a = None) ∧
            (∀ a b, live m !! a = Some b → live m1 !! a = Some b) ∧
            (a0 ∈ addrs ∨ live m !! a0 = None))
    as (addrs1 & -> & Hnd1 & Hin0 & Hlive1 & Hfrom & Hkeep & Ha0).
  { destruct Hcase as [(-> & -> & _)|(Hna & -> & _)].
    - exists addrs. rewrite Hbl in Hlast. rewrite fmap_last in Hlast.
      destruct (last addrs) as [al|] eqn:Hl; [|done]. injection Hlast as ->.
      assert (a0 ∈ addrs).
      { rewrite last_lookup in Hl. by eapply list_elem_of_lookup_2. }
      repeat split; try done; auto.
    - destruct (new_array_fresh EPB m) as [Hfresh _].
      pose proof (new_array_live EPB m) as Hnew.
      rewrite Hna in Hfresh, Hnew. cbn [fst snd] in Hfresh, Hnew.
      exists (addrs ++ [a0]). rewrite Hbl, fmap_app. split; [done|].
      assert (a0 ∉ addrs) as Hnotin.
      { intros Hin. destruct (Hlive a0 Hin) as (b & Hb & _).
        pose proof (eq_trans (eq_sym Hb) Hfresh). done. }
      split; [|split; [|split; [|split; [|split]]]].
      + apply NoDup_app. split; [done|]. split; [|apply NoDup_singleton].
        intros x Hx Hx'. apply list_elem_of_singleton in Hx'. by subst.
      + apply elem_of_app. right. by apply list_elem_of_singleton.
      + intros a Ha. rewrite Hnew. case_decide; [eauto|].
        apply elem_of_app in Ha as [Ha|Ha]; [by apply Hlive|].
        apply list_elem_of_singleton in Ha. by subst.
      + intros a Ha. apply elem_of_app in Ha as [Ha|Ha]; [by left|].
        apply list_elem_of_singleton in Ha. subst. by right.
      + intros a b Hb. rewrite Hnew. case_decide as Heq; [|done].
        subst. pose proof (eq_trans (eq_sym Hb) Hfresh). done.
      + by right. }
  assert (extent b0 = EPB) as He0.
  { destruct (Hlive1 a0 Hin0) as (b & Hb & He).
    pose proof (eq_trans (eq_sym Hb0) Hb) as Heq. by injection Heq as ->. }
  unfold local_effect, well_formed. cbn [DeallocatingVector.bucket_list].
  split; [split; [|split; [|done]]|split].
  - unfold intact. by rewrite held_fmap_Some.
  - unfold owns. rewrite held_fmap_Some. split; [done|]. intros a Ha.
    cbn [live]. destruct (decide (a0 = a)) as [<-|Hne].
    + rewrite lookup_insert_eq. eexists. split; [done|]. done.
    + rewrite lookup_insert_ne by done. by apply Hlive1.
  - rewrite held_fmap_Some, Hbl, held_fmap_Some. exact Hfrom.
  - rewrite Hbl, held_fmap_Some. intros a b Hnotin Hb. cbn [live].
    rewrite lookup_insert_ne; [by apply Hkeep|].
    intros <-. destruct Ha0 as [Hin|Hnone]; [done|].
    pose proof (eq_trans (eq_sym Hb) Hnone). done.
Qed.
End Sound.

Section SoundSteps.
Context {ElementT : Type} `{!DefaultInit ElementT} (EPB : Z) (HEPB : 0 < EPB < SIZE_MODULUS).
Implicit Types (m : memory ElementT) (c : DeallocatingVector.t).
Implicit Types (w : World.t ElementT) (o : Program.op (ElementT := ElementT)).








End SoundSteps.



Lemma five_pushed_sound : sound 2 five_pushed.
Proof.
  assert (World.vectors five_pushed = [five_pushed_vector]) as Hv by (by vm_compute).
  split.
  - intros k c Hc. rewrite Hv in Hc. destruct k as [|k]; [|done].
    injection Hc as <-. split; [by vm_compute|]. split; [exact five_pushed_owns|].
    split; [unfold SIZE_MODULUS; simpl; lia|by vm_compute].
  - intros k j c d a Hc Hd _ _. rewrite Hv in Hc, Hd.
    destruct k as [|k]; [|done]. destruct j as [|j]; [|done]. done.
Qed.



(** X15. On a sound container [push_back] always returns. It allocates
    one block exactly when [size() == capacity()] and none otherwise: the
    blocks live afterwards are those live before, plus, in the full case
    only, one block at an address that was neither live nor released,
    appended to the bucket list. Every block other than the last one of
    the bucket list is unchanged, and the last one differs from what it
    was (or from a default-initialised block, when it is new) only in the
    element assigned. Nothing is released, the size grows by one modulo
    [2^64] and the container stays sound. *)
Theorem push_back_on_sound {ElementT : Type} `{!DefaultInit ElementT}
    (ELEMENTS_PER_BLOCK : Z) (m : memory ElementT) (c : DeallocatingVector.t)
    (v : ElementT) :
  0 < ELEMENTS_PER_BLOCK < SIZE_MODULUS →
  well_formed ELEMENTS_PER_BLOCK m c →
  ∃ m' c' a0,
    DeallocatingVector.push_back ELEMENTS_PER_BLOCK m c v = Ok (m', c') ∧
    well_formed ELEMENTS_PER_BLOCK m' c' ∧
    DeallocatingVector.size c' = wrap (DeallocatingVector.size c + 1) ∧
    released m' = released m ∧
    Vector.size (DeallocatingVector.bucket_list c')
    = Vector.size (DeallocatingVector.bucket_list c)
      + (if decide (DeallocatingVector.size c
                    = DeallocatingVector.capacity ELEMENTS_PER_BLOCK c)
         then 1 else 0) ∧
    last (DeallocatingVector.bucket_list c') = Some (Some a0) ∧
    (∀ a, a ≠ a0 → live m' !! a = live m !! a) ∧
    (∀ a, is_Some (live m' !! a) ↔
          is_Some (live m !! a) ∨
          (DeallocatingVector.size c
           = DeallocatingVector.capacity ELEMENTS_PER_BLOCK c ∧ a = a0)) ∧
    (if decide (DeallocatingVector.size c
                = DeallocatingVector.capacity ELEMENTS_PER_BLOCK c)
     then live m !! a0 = None ∧ (a0 ∉ released m) ∧
          DeallocatingVector.bucket_list c'
          = DeallocatingVector.bucket_list c ++ [Some a0] ∧
          live m' !! a0
          = Some {| extent := ELEMENTS_PER_BLOCK;
                    cells := <[DeallocatingVector.size c mod ELEMENTS_PER_BLOCK := v]>
                               (default_cells ELEMENTS_PER_BLOCK) |}
     else DeallocatingVector.bucket_list c' = DeallocatingVector.bucket_list c ∧
          ∃ b0, live m !! a0 = Some b0 ∧
                live m' !! a0
                = Some {| extent := extent b0;
                          cells := <[DeallocatingVector.size c mod ELEMENTS_PER_BLOCK := v]>
                                     (cells b0) |}).
Proof.
  intros HEPB Hwf.
  destruct (push_back_total ELEMENTS_PER_BLOCK HEPB m c v Hwf) as (m' & c' & Hpush).
  destruct (push_back_local ELEMENTS_PER_BLOCK HEPB m c v m' c' Hwf Hpush) as [Hwf' _].
  destruct (push_back_frame ELEMENTS_PER_BLOCK m c v m' c' Hpush) as [Hrel _].
  pose proof Hpush as Hshape.
  apply push_back_Ok in Hshape
    as (m1 & bl1 & a0 & b0 & Hcase & Hlast & Hb0 & _ & Hm' & Hc').
  exists m', c', a0. split; [done|]. split; [done|].
  subst m' c'. split; [done|]. split; [done|].
  unfold DeallocatingVector.size, Vector.size.
  cbn [DeallocatingVector.bucket_list DeallocatingVector.current_size live].
  destruct Hcase as [(-> & -> & Hne)|(Hna & -> & Heq)].
  - rewrite !decide_False by done.
    split; [lia|]. split; [done|]. split.
    { intros a Ha. by rewrite lookup_insert_ne. }
    split.
    { intros a. destruct (decide (a = a0)) as [->|Ha].
      - rewrite lookup_insert_eq. split; [eauto|eauto].
      - rewrite lookup_insert_ne by done. split; [eauto|].
        intros [?|[? ?]]; done. }
    split; [done|]. exists b0. split; [done|]. by rewrite lookup_insert_eq.
  - rewrite !decide_True by done.
    destruct (new_array_fresh ELEMENTS_PER_BLOCK m) as [Hfresh Hnotrel].
    pose proof (new_array_live ELEMENTS_PER_BLOCK m) as Hnew.
    rewrite Hna in Hfresh, Hnotrel, Hnew. cbn [fst snd] in Hfresh, Hnotrel, Hnew.
    split; [rewrite length_app; simpl; lia|]. split; [done|]. split.
    { intros a Ha. rewrite lookup_insert_ne by done. rewrite Hnew.
      by rewrite decide_False. }
    split.
    { intros a. destruct (decide (a = a0)) as [->|Ha].
      - rewrite lookup_insert_eq. split; [eauto|eauto].
      - rewrite lookup_insert_ne by done. rewrite Hnew.
        rewrite decide_False by done. split; [eauto|].
        intros [?|[? ?]]; done. }
    split; [done|]. split; [done|]. split; [done|].
    rewrite lookup_insert_eq.
    pose proof (Hnew a0) as Ha0. rewrite decide_True in Ha0 by done.
    pose proof (eq_trans (eq_sym Hb0) Ha0) as Hb. injection Hb as ->.
    done.
Qed.

Lemma five_pushed_well_formed : well_formed 2 (World.mem five_pushed) five_pushed_vector.
Proof. destruct five_pushed_sound as [Hwf _]. apply (Hwf 0%nat). by vm_compute. Qed.

Lemma push_back_on_sound_witness :
  ∃ m' c' a0,
    DeallocatingVector.push_back 2 (World.mem five_pushed) five_pushed_vector 60
    = Ok (m', c') ∧
    well_formed 2 m' c' ∧
    DeallocatingVector.size c' = wrap (DeallocatingVector.size five_pushed_vector + 1) ∧
    released m' = released (World.mem five_pushed) ∧
    Vector.size (DeallocatingVector.bucket_list c')
    = Vector.size (DeallocatingVector.bucket_list five_pushed_vector)
      + (if decide (DeallocatingVector.size five_pushed_vector
                    = DeallocatingVector.capacity 2 five_pushed_vector)
         then 1 else 0) ∧
    last (DeallocatingVector.bucket_list c') = Some (Some a0) ∧
    (∀ a, a ≠ a0 → live m' !! a = live (World.mem five_pushed) !! a) ∧
    (∀ a, is_Some (live m' !! a) ↔
          is_Some (live (World.mem five_pushed) !! a) ∨
          (DeallocatingVector.size five_pushed_vector
           = DeallocatingVector.capacity 2 five_pushed_vector ∧ a = a0)) ∧
    (if decide (DeallocatingVector.size five_pushed_vector
                = DeallocatingVector.capacity 2 five_pushed_vector)
     then live (World.mem five_pushed) !! a0 = None ∧
          (a0 ∉ released (World.mem five_pushed)) ∧
          DeallocatingVector.bucket_list c'
          = DeallocatingVector.bucket_list five_pushed_vector ++ [Some a0] ∧
          live m' !! a0
          = Some {| extent := 2;
                    cells := <[DeallocatingVector.size five_pushed_vector mod 2 := 60]>
                               (default_cells 2) |}
     else DeallocatingVector.bucket_list c'
          = DeallocatingVector.bucket_list five_pushed_vector ∧
          ∃ b0, live (World.mem five_pushed) !! a0 = Some b0 ∧
                live m' !! a0
                = Some {| extent := extent b0;
                          cells := <[DeallocatingVector.size five_pushed_vector mod 2 := 60]>
                                     (cells b0) |}).
Proof.
  apply (push_back_on_sound 2 (World.mem five_pushed) five_pushed_vector 60).
  - unfold SIZE_MODULUS. lia.
  - exact five_pushed_well_formed.
Defined.



(** ** Construction and the boundary of [resize] *)

(** X17. The constructor allocates exactly one block of
    [ELEMENTS_PER_BLOCK] default-initialised elements, at an address that
    was neither live nor released: the live blocks afterwards are those
    before plus that one, and nothing is released. The new container has
    size [0] and capacity [ELEMENTS_PER_BLOCK]; [operator[]] is a valid
    reference at every index below the capacity, and reading through it
    gives the default-constructed value of a class type and is undefined
    behaviour for a type without initialisation. *)
Theorem construct_new_container {ElementT : Type} `{!DefaultInit ElementT}
    (ELEMENTS_PER_BLOCK : Z) (m : memory ElementT) :
  0 < ELEMENTS_PER_BLOCK < SIZE_MODULUS →
  ∃ m' c a,
    DeallocatingVector.construct ELEMENTS_PER_BLOCK m = (m', c) ∧
    DeallocatingVector.bucket_list c = [Some a] ∧
    DeallocatingVector.size c = 0 ∧
    DeallocatingVector.capacity ELEMENTS_PER_BLOCK c = ELEMENTS_PER_BLOCK ∧
    live m !! a = None ∧ (a ∉ released m) ∧
    released m' = released m ∧
    live m' = <[a := {| extent := ELEMENTS_PER_BLOCK;
                        cells := default_cells ELEMENTS_PER_BLOCK |}]> (live m) ∧
    (∀ a' b, live m !! a' = Some b → live m' !! a' = Some b) ∧
    (∀ a', is_Some (live m' !! a') ↔ a' = a ∨ is_Some (live m !! a')) ∧
    (∀ i, 0 <= i < ELEMENTS_PER_BLOCK →
          DeallocatingVector.subscript ELEMENTS_PER_BLOCK m' c i = Ok (a, i) ∧
          DeallocatingVector.read ELEMENTS_PER_BLOCK m' c i
          = match default_init with
            | Some d => Ok d
            | None => Undefined
            end).
Proof.
  intros HEPB. unfold DeallocatingVector.construct.
  destruct (new_array_fresh ELEMENTS_PER_BLOCK m) as [Hfresh Hnotrel].
  pose proof (new_array_live ELEMENTS_PER_BLOCK m) as Hnew.
  pose proof (new_array_keeps ELEMENTS_PER_BLOCK m) as Hkeep.
  pose proof (new_array_released ELEMENTS_PER_BLOCK m) as Hrel.
  assert (live (new_array ELEMENTS_PER_BLOCK m).2
          = <[(new_array ELEMENTS_PER_BLOCK m).1 :=
                {| extent := ELEMENTS_PER_BLOCK;
                   cells := default_cells ELEMENTS_PER_BLOCK |}]> (live m))
    as Hlive by done.
  destruct (new_array ELEMENTS_PER_BLOCK m) as [a m1]. cbn [fst snd] in *.
  exists m1, {| DeallocatingVector.current_size := 0;
                DeallocatingVector.bucket_list := [Some a] |}, a.
  split; [done|]. split; [done|]. split; [done|]. split.
  { unfold DeallocatingVector.capacity, Vector.size.
    cbn [DeallocatingVector.bucket_list length].
    rewrite wrap_small by lia. lia. }
  split; [done|]. split; [done|]. split; [done|]. split; [done|].
  split; [done|]. split.
  { intros a'. rewrite Hnew. case_decide as Hdec.
    - split; [by left|by eauto].
    - split; [by right|]. by intros [?|?]. }
  intros i Hi.
  assert (live m1 !! a = Some {| extent := ELEMENTS_PER_BLOCK;
                                 cells := default_cells ELEMENTS_PER_BLOCK |})
    as Ha.
  { rewrite Hnew. by rewrite decide_True. }
  assert (DeallocatingVector.subscript ELEMENTS_PER_BLOCK m1
            {| DeallocatingVector.current_size := 0;
               DeallocatingVector.bucket_list := [Some a] |} i = Ok (a, i)) as Hsub.
  { apply subscript_Ok. eexists a, _.
    rewrite Z.div_small, Z.mod_small by lia. simpl.
    repeat split; try done; simpl; lia. }
  split; [done|]. unfold DeallocatingVector.read. rewrite Hsub.
  cbn [mbind outcome_bind]. unfold load. cbn [fst snd]. rewrite Ha.
  cbn [cells]. rewrite lookup_default_cells, decide_True by lia.
  unfold default_init. by destruct DefaultInit0.
Qed.

Lemma construct_new_container_witness :
  ∃ m' c a,
    DeallocatingVector.construct 4 (Memory.empty (ElementT := Z)) = (m', c) ∧
    DeallocatingVector.bucket_list c = [Some a] ∧
    DeallocatingVector.size c = 0 ∧
    DeallocatingVector.capacity 4 c = 4 ∧
    live (Memory.empty (ElementT := Z)) !! a = None ∧
    (a ∉ released (Memory.empty (ElementT := Z))) ∧
    released m' = released (Memory.empty (ElementT := Z)) ∧
    live m' = <[a := {| extent := 4; cells := default_cells 4 |}]>
                (live (Memory.empty (ElementT := Z))) ∧
    (∀ a' b, live (Memory.empty (ElementT := Z)) !! a' = Some b →
             live m' !! a' = Some b) ∧
    (∀ a', is_Some (live m' !! a')
           ↔ a' = a ∨ is_Some (live (Memory.empty (ElementT := Z)) !! a')) ∧
    (∀ i, 0 <= i < 4 →
          DeallocatingVector.subscript 4 m' c i = Ok (a, i) ∧
          DeallocatingVector.read 4 m' c i
          = match default_init with
            | Some d => Ok d
            | None => Undefined
            end).
Proof.
  apply (construct_new_container 4 Memory.empty). unfold SIZE_MODULUS. lia.
Defined.

(** X18. [resize(size())] changes nothing: the test [new_size >=
    current_size] sends the equal case to the growing branch, whose loop
    does not run when the capacity covers the size, so neither the blocks
    nor the elements are touched. *)
Theorem resize_to_same_size {ElementT : Type} `{!DefaultInit ElementT}
    (ELEMENTS_PER_BLOCK : Z) (fuel : nat)
    (m : memory ElementT) (c : DeallocatingVector.t) :
  DeallocatingVector.size c <= DeallocatingVector.capacity ELEMENTS_PER_BLOCK c →
  DeallocatingVector.resize ELEMENTS_PER_BLOCK fuel m c (DeallocatingVector.size c)
  = Ok (m, c).
Proof.
  intros Hcap. unfold DeallocatingVector.resize, DeallocatingVector.size in *.
  rewrite decide_True by lia. rewrite resize_grow_unfold.
  rewrite decide_False by lia. cbn [mbind outcome_bind]. by destruct c.
Qed.

Lemma resize_to_same_size_witness :
  DeallocatingVector.resize 2 0 (World.mem five_pushed) five_pushed_vector
    (DeallocatingVector.size five_pushed_vector)
  = Ok (World.mem five_pushed, five_pushed_vector).
Proof.
  apply (resize_to_same_size 2 0 (World.mem five_pushed) five_pushed_vector).
  by vm_compute.
Defined.
